(** * Forest: an agent-based model of emerald-ash-borer spread

    A shallow embedding of the notebook [Mesa_invasive_species_practice.ipynb]:
    the agent class [Ash_Tree], the model class [Forest] and the driver
    [run_model], followed by the properties of the design document that are
    checked against them.

    Python objects that are shared between the grid and the scheduler are
    modelled by a store of trees indexed by [unique_id]; the grid holds ids.
    Python exceptions are modelled by the [result] type. *)

From Stdlib Require Import ZArith Floats.SpecFloat.
From stdpp Require Import base tactics option list numbers gmap.

Local Open Scope Z_scope.

(** ** Python values *)

(** The exceptions the modelled code can raise. *)
Inductive exn : Set :=
| IndexError          (* list index out of range *)
| OverflowError       (* int too large for a float, or int(inf) *)
| ValueError          (* int(nan) *)
| OccupiedCellError.  (* the grid refuses a placement *)

Inductive result (A : Type) : Type :=
| Ok (a : A)
| Err (e : exn).
Arguments Ok {A} a.
Arguments Err {A} e.

Definition bind {A B} (r : result A) (k : A → result B) : result B :=
  match r with
  | Ok a => k a
  | Err e => Err e
  end.

Notation "x ←! r ; k" := (bind r (λ x, k))
  (at level 20, r at level 100, k at level 200, right associativity,
   format "x  ←!  r ;  '/' k").

(** A loop whose body may raise: the first exception ends it. *)
Fixpoint for_each {A S} (body : S → A → result S) (s : S) (l : list A)
    : result S :=
  match l with
  | [] => Ok s
  | a :: l' => s' ←! body s a; for_each body s' l'
  end.

(** Python's [float] is IEEE 754 binary64. *)
Definition prec : Z := 53.
Definition emax : Z := 1024.
Abbreviation float := spec_float.

(** [float(n)] for an [int]: correctly rounded, [OverflowError] when it
    does not fit. *)
Definition float_of_int (n : Z) : result float :=
  match binary_normalize prec emax n 0 false with
  | S754_infinity _ => Err OverflowError
  | f => Ok f
  end.

(** [n * d] for an [int] and a [float]. *)
Definition int_mul_float (n : Z) (d : float) : result float :=
  f ←! float_of_int n; Ok (SFmul prec emax f d).

(** [int(f)]: truncation towards zero. *)
Definition int_of_float (f : float) : result Z :=
  match f with
  | S754_zero _ => Ok 0
  | S754_infinity _ => Err OverflowError
  | S754_nan => Err ValueError
  | S754_finite s m e =>
      let a := Z.shiftl (Z.pos m) e in
      Ok (if s then - a else a)
  end.

(** [floor(n × d)] computed exactly, for a finite [d = ± m · 2^e]: the
    agent count as the design document words it. *)
Definition floor_mul (n : Z) (d : float) : Z :=
  match d with
  | S754_finite s m e => Z.shiftl (n * (if s then Z.neg m else Z.pos m)) e
  | _ => 0
  end.

(** [floor(f)] for a finite double [f = ± m · 2^e]. *)
Definition floor_float (f : float) : Z :=
  match f with
  | S754_finite s m e => Z.shiftl (if s then Z.neg m else Z.pos m) e
  | _ => 0
  end.

(** [range(n)] *)
Definition range (n : Z) : list Z := seqZ 0 n.

(** ** The random source

    [model.random] is a [random.Random]; the code only calls [shuffle] on
    it.  The generator itself is outside the notebook: any state type with a
    shuffle that permutes its argument is a random source. *)
Record RandomSource : Type := {
  rng : Type;
  shuffle : ∀ {A : Type}, rng → list A → list A * rng;
  shuffle_perm : ∀ (A : Type) (r : rng) (l : list A), (shuffle r l).1 ≡ₚ l
}.
Arguments shuffle R {A} r l : rename.

(** ** Agent class *)

(** The attribute [condition] holds one of the strings "Healthy",
    "Infected" and "Dead". *)
Inductive Condition : Set := Healthy | Infected | Dead.

Global Instance Condition_eq_dec : EqDecision Condition.
Proof. solve_decision. Defined.

Record Ash_Tree : Set := {
  unique_id : nat;
  pos : Z * Z;
  condition : Condition
}.

Definition set_condition (c : Condition) (t : Ash_Tree) : Ash_Tree :=
  {| unique_id := unique_id t; pos := pos t; condition := c |}.

(** ** The grid

    The grid is [mesa.space.SingleGrid(width, height, torus=False)], a class
    of the library.  It is a map from cells to the ids of their trees. *)

(** The cells of a [w] by [h] grid. *)
Definition in_bounds (w h : Z) (p : Z * Z) : Prop :=
  0 ≤ p.1 < w ∧ 0 ≤ p.2 < h.

Global Instance in_bounds_dec w h p : Decision (in_bounds w h p).
Proof. unfold in_bounds. apply _. Defined.

(** Modelled from the spec: [grid.place_agent], of the library.  "Inserts
    agent at position; fails with OccupiedCellError if the cell is already
    filled or position is out of bounds." *)
Definition place_agent (w h : Z) (g : gmap (Z * Z) nat) (a : nat) (p : Z * Z)
    : result (gmap (Z * Z) nat) :=
  if decide (in_bounds w h p) then
    match g !! p with
    | None => Ok (<[p := a]> g)
    | Some _ => Err OccupiedCellError
    end
  else Err OccupiedCellError.

(** Modelled from the spec: the cells the library looks at for
    [get_neighbors(pos, moore=True, include_center=False)].  "The 8 cells
    adjacent (including diagonals) to the given position, excluding the
    center; positions outside the grid boundary are simply absent (no
    wraparound)." *)
Definition get_neighborhood (w h : Z) (p : Z * Z) : list (Z * Z) :=
  let x_lo := Z.max 0 (p.1 - 1) in
  let x_hi := Z.min w (p.1 + 2) in
  let y_lo := Z.max 0 (p.2 - 1) in
  let y_hi := Z.min h (p.2 + 2) in
  filter (λ c, c ≠ p)
    (nx ← seqZ x_lo (x_hi - x_lo); ny ← seqZ y_lo (y_hi - y_lo); [(nx, ny)]).

(** Modelled from the spec: [grid.get_neighbors], "the set of occupied cells
    among" those, as the ids of their occupants. *)
Definition get_neighbors (w h : Z) (g : gmap (Z * Z) nat) (p : Z * Z)
    : list nat :=
  omap (λ c, g !! c) (get_neighborhood w h p).

(** Two distinct cells that touch by a side or a corner. *)
Definition moore_adjacent (p q : Z * Z) : Prop :=
  p ≠ q ∧ Z.abs (p.1 - q.1) ≤ 1 ∧ Z.abs (p.2 - q.2) ≤ 1.

(** ** Model class *)

Section Forest.
Context (R : RandomSource).

(** One row of the data collector: the Healthy, Infected and Dead counts. *)
Record counts : Set := {
  n_healthy : nat;
  n_infected : nat;
  n_dead : nat
}.

Record Forest : Type := {
  width : Z;
  height : Z;
  tree_density : float;
  running : bool;
  random : rng R;
  grid : gmap (Z * Z) nat;          (* cell -> unique_id of its tree *)
  agents : list Ash_Tree;           (* schedule.agents, by unique_id *)
  datacollector : list counts       (* one row per collect, oldest first *)
}.

Definition set_agents (ts : list Ash_Tree) (m : Forest) : Forest :=
  {| width := width m; height := height m; tree_density := tree_density m;
     running := running m; random := random m; grid := grid m;
     agents := ts; datacollector := datacollector m |}.

Definition set_random (r : rng R) (m : Forest) : Forest :=
  {| width := width m; height := height m; tree_density := tree_density m;
     running := running m; random := r; grid := grid m;
     agents := agents m; datacollector := datacollector m |}.

Definition set_running (b : bool) (m : Forest) : Forest :=
  {| width := width m; height := height m; tree_density := tree_density m;
     running := b; random := random m; grid := grid m;
     agents := agents m; datacollector := datacollector m |}.

Definition add_row (c : counts) (m : Forest) : Forest :=
  {| width := width m; height := height m; tree_density := tree_density m;
     running := running m; random := random m; grid := grid m;
     agents := agents m; datacollector := datacollector m ++ [c] |}.

(** The body of the loop over the neighbours: a Healthy neighbour becomes
    Infected. *)
Definition infect (ts : list Ash_Tree) (neighbor : nat) : list Ash_Tree :=
  match ts !! neighbor with
  | Some t =>
      if decide (condition t = Healthy)
      then <[neighbor := set_condition Infected t]> ts
      else ts
  | None => ts
  end.

(** [Ash_Tree.maybe_spread_infection], for the tree with id [self]. *)
Definition maybe_spread_infection (self : nat) (m : Forest) : Forest :=
  match agents m !! self with
  | Some t =>
      if decide (condition t = Infected) then
        let neighbors := get_neighbors (width m) (height m) (grid m) (pos t) in
        let ts := foldl infect (agents m) neighbors in
        set_agents (alter (set_condition Dead) self ts) m
      else m
  | None => m
  end.

(** [Ash_Tree.step] *)
Definition Ash_Tree_step (self : nat) (m : Forest) : Forest :=
  maybe_spread_infection self m.

(** [Forest.count_type] *)
Definition count_type (m : Forest) (tree_condition : Condition) : nat :=
  foldl (λ count tree,
           if decide (condition tree = tree_condition) then S count else count)
        0%nat (agents m).

(** [datacollector.collect]: evaluate the three reporters. *)
Definition collect (m : Forest) : Forest :=
  add_row {| n_healthy := count_type m Healthy;
             n_infected := count_type m Infected;
             n_dead := count_type m Dead |} m.

(** The trees of [order] take their step one after the other. *)
Definition visit (order : list nat) (m : Forest) : Forest :=
  foldl (λ m self, Ash_Tree_step self m) m order.

(** Modelled from the spec: [schedule.step()] of the library scheduler
    [mesa.time.RandomActivation].  "Build a randomized visitation order over
    all live agents; every agent is visited exactly once per step"; the
    order is drawn from the random source of the model. *)
Definition schedule_step (m : Forest) : Forest :=
  let '(order, r) := shuffle R (random m) (seq 0 (length (agents m))) in
  visit order (set_random r m).

(** [Forest.step] *)
Definition Forest_step (m : Forest) : Forest :=
  let m := schedule_step m in
  let m := collect m in
  if decide (count_type m Infected = 0%nat) then set_running false m else m.

(** [Forest.__init__]: the count [int(width*height*tree_density)], the body
    of the creation loop, and the initialiser.  The seed is the state of
    [model.random], which the library draws when the model is constructed.
    The constructor of the library grid is not part of the notebook: what
    it does with dimensions that are not positive is not modelled. *)
Definition num_of_agents (width height : Z) (tree_density : float) : result Z :=
  f ←! int_mul_float (width * height) tree_density; int_of_float f.

Definition add_tree (all_possible_positions : list (Z * Z))
    (m : Forest) (i : nat) : result Forest :=
  match all_possible_positions !! i with
  | None => Err IndexError
  | Some (x, y) =>
      let condition := if decide (x = 0) then Infected else Healthy in
      let new_tree :=
        {| unique_id := i; pos := (x, y); condition := condition |} in
      g ←! place_agent (width m) (height m) (grid m) i (x, y);
      Ok {| width := width m; height := height m;
            tree_density := tree_density m; running := running m;
            random := random m; grid := g;
            agents := agents m ++ [new_tree];
            datacollector := datacollector m |}
  end.

Definition Forest_init (seed : rng R) (width height : Z) (tree_density : float)
    : result Forest :=
  let all_possible_positions :=
    x ← range width; y ← range height; [(x, y)] in
  let '(all_possible_positions, r) := shuffle R seed all_possible_positions in
  n ←! num_of_agents width height tree_density;
  for_each (add_tree all_possible_positions)
    {| width := width; height := height; tree_density := tree_density;
       running := true; random := r; grid := ∅; agents := [];
       datacollector := [] |}
    (seq 0 (Z.to_nat n)).

(** [run_model]: the loop, then the whole driver.  The data frame it returns
    is the list of collected rows. *)
Fixpoint run_loop (steps : nat) (m : Forest) : Forest :=
  match steps with
  | O => m
  | S steps' => if running m then run_loop steps' (Forest_step m) else m
  end.

Definition run_model (seed : rng R) (width height : Z) (tree_density : float)
    (max_steps : Z) : result (list counts) :=
  model ←! Forest_init seed width height tree_density;
  Ok (datacollector (run_loop (Z.to_nat max_steps) model)).

End Forest.

Arguments width {R} _.
Arguments height {R} _.
Arguments tree_density {R} _.
Arguments running {R} _.
Arguments random {R} _.
Arguments grid {R} _.
Arguments agents {R} _.
Arguments datacollector {R} _.
Arguments set_agents {R} ts m.
Arguments set_random {R} r m.
Arguments set_running {R} b m.
Arguments add_row {R} c m.
Arguments maybe_spread_infection {R} self m.
Arguments Ash_Tree_step {R} self m.
Arguments count_type {R} m tree_condition.
Arguments collect {R} m.
Arguments visit {R} order m.
Arguments schedule_step {R} m.
Arguments Forest_step {R} m.
Arguments add_tree {R} all_possible_positions m i.
Arguments run_loop {R} steps m.

(** ** Two random sources

    A scripted source that leaves every list in the order given, and a
    linear congruential generator that draws the elements one by one. *)
Definition fixed_order : RandomSource :=
  {| rng := unit;
     shuffle := λ A r l, (l, r);
     shuffle_perm := λ A r l, reflexivity l |}.

Definition lcg_next (s : Z) : Z := (1103515245 * s + 12345) `mod` 2 ^ 31.

Fixpoint lcg_draw {A} (fuel : nat) (s : Z) (l : list A) : list A * Z :=
  match fuel with
  | O => (l, s)
  | S fuel' =>
      let s' := lcg_next s in
      let k := Z.to_nat (s' `mod` Z.of_nat (length l)) in
      match l !! k with
      | Some x => let '(rest, s'') := lcg_draw fuel' s' (delete k l) in
                  (x :: rest, s'')
      | None => (l, s')
      end
  end.

(** The generator as a random source; its shuffle permutes because every
    draw takes one element out of the remaining list. *)
Definition lcg : RandomSource.
Proof.
  refine {| rng := Z; shuffle := λ A s l, lcg_draw (length l) s l |}.
  abstract (
    intros A s l; generalize (length l) at 1; intros fuel; revert s l;
    induction fuel as [|fuel IH]; intros s l; simpl; [done|];
    set (k := Z.to_nat _);
    destruct (l !! k) as [x|] eqn:Hk; [|done];
    specialize (IH (lcg_next s) (delete k l));
    destruct (lcg_draw fuel _ _) as [rest s'']; simpl in *;
    rewrite IH; symmetry; by apply delete_Permutation).
Defined.

(** ** Floats used in the examples *)
Definition float_one : float := S754_finite false 4503599627370496 (-52).
Definition float_half : float := S754_finite false 4503599627370496 (-53).
(** [1/3], that is [0.3333333333333333] *)
Definition float_third : float := S754_finite false 6004799503160661 (-54).
(** The literals [0.3] and [0.29]: the doubles nearest to 3/10 and 29/100. *)
Definition float_0_3 : float := S754_finite false 5404319552844595 (-54).
Definition float_0_29 : float := S754_finite false 5224175567749775 (-54).
(** The literal [0.8]: the double nearest to 4/5. *)
Definition float_0_8 : float := S754_finite false 7205759403792794 (-53).

(** [a / b] for two [int]s: true division, correctly rounded. *)
Definition int_truediv (a b : Z) : result float :=
  x ←! float_of_int a; y ←! float_of_int b; Ok (SFdiv prec emax x y).

(** * Vocabulary of the properties *)

Section Vocabulary.
Context {R : RandomSource}.
Implicit Types (m : Forest R) (t u : Ash_Tree) (c : Condition).

(** What a neighbour looks like after an infected tree has acted on it. *)
Definition catch (t : Ash_Tree) : Ash_Tree :=
  if decide (condition t = Healthy) then set_condition Infected t else t.

(** Grid and scheduler agree.  The grid is "the single source of truth for
    who is where": a cell holds the id [i] exactly when tree [i] of the
    scheduler stands there, and every tree stands inside the rectangle. *)
Record wf_forest m : Prop := {
  wf_occupant : ∀ p i, grid m !! p = Some i ↔ pos <$> agents m !! i = Some p;
  wf_bounds : ∀ i t, agents m !! i = Some t →
                     in_bounds (width m) (height m) (pos t)
}.

(** The tree the loop of [Forest.__init__] creates for index [i] at [p]. *)
Definition new_tree (i : nat) (p : Z * Z) : Ash_Tree :=
  {| unique_id := i; pos := p;
     condition := if decide (p.1 = 0) then Infected else Healthy |}.

(** All cells, in the order of the list comprehension. *)
Definition all_cells (w h : Z) : list (Z * Z) :=
  x ← range w; y ← range h; [(x, y)].

(** The state of the creation loop after [k] trees. *)
Record created (ps : list (Z * Z)) (m0 : Forest R) (k : nat) m : Prop := {
  created_width : width m = width m0;
  created_height : height m = height m0;
  created_density : tree_density m = tree_density m0;
  created_running : running m = running m0;
  created_random : random m = random m0;
  created_rows : datacollector m = datacollector m0;
  created_agents : agents m = imap new_tree (take k ps);
  created_grid : ∀ p i, grid m !! p = Some i ↔ (i < k)%nat ∧ ps !! i = Some p
}.

(** One change of condition, or none. *)
Definition forward_step (c c' : Condition) : Prop :=
  c' = c ∨ (c = Healthy ∧ c' = Infected) ∨ (c = Infected ∧ c' = Dead).

Definition rank (c : Condition) : nat :=
  match c with Healthy => 0 | Infected => 1 | Dead => 2 end.

(** The same tree, possibly further along Healthy, Infected, Dead. *)
Definition later (u u' : Ash_Tree) : Prop :=
  unique_id u' = unique_id u ∧ pos u' = pos u ∧
  (rank (condition u) ≤ rank (condition u'))%nat.

(** [k] consecutive calls of [Forest.step]. *)
Fixpoint steps (k : nat) m : Forest R :=
  match k with
  | O => m
  | S k' => steps k' (Forest_step m)
  end.

(** The visiting order of the step taken from [m]. *)
Definition step_order m : list nat :=
  (shuffle R (random m) (seq 0 (length (agents m)))).1.

(** The row a step appends. *)
Definition row_of m : counts :=
  {| n_healthy := count_type m Healthy;
     n_infected := count_type m Infected;
     n_dead := count_type m Dead |}.

(** What a step does to one tree. *)
Definition step_rel (u u' : Ash_Tree) : Prop :=
  later u u' ∧ (condition u = Infected → condition u' = Dead).

(** Two trees on adjacent cells. *)
Definition adjacent_trees m (i j : nat) : Prop :=
  ∃ p q, (pos <$> agents m) !! i = Some p ∧
         (pos <$> agents m) !! j = Some q ∧ moore_adjacent p q.

(** No Dead tree has a Healthy tree next to it. *)
Definition fenced m : Prop :=
  ∀ i j t u, agents m !! i = Some t → agents m !! j = Some u →
             moore_adjacent (pos t) (pos u) →
             condition t = Dead → condition u ≠ Healthy.

(** The trees no chain of adjacent trees links to an Infected one. *)
Definition out_of_reach m (j : nat) : Prop :=
  ∀ i t, agents m !! i = Some t → condition t = Infected →
         ¬ rtc (adjacent_trees m) i j.

End Vocabulary.

(** A density in [0, 1], as a binary64 value. *)
Definition density_valid (d : float) : Prop :=
  valid_binary prec emax d = true ∧
  SFleb (S754_zero false) d = true ∧ SFleb d float_one = true.

(** The exact product [n × d] is an integer. *)
Definition mul_is_integer (n : Z) (d : float) : Prop :=
  match d with
  | S754_finite _ m e => 0 ≤ e ∨ (n * Z.pos m) `mod` 2 ^ (- e) = 0
  | S754_zero _ => True
  | _ => False
  end.

(** The bits shifted out so far: [mrs] is [m0] without its [n] low bits, and
    its two flags are clear only if those bits were all zero. *)
Definition shr_inv (m0 n : Z) (mrs : shr_record) : Prop :=
  shr_m mrs = m0 / 2 ^ n ∧
  (orb (shr_r mrs) (shr_s mrs) = true → m0 `mod` 2 ^ n ≠ 0).

Section TwoSourcesVocabulary.
Context {R1 R2 : RandomSource}.

(** Two generator states that will hand out the same orders for ever. *)
Record agree (sim : rng R1 → rng R2 → Prop) : Prop := {
  agree_order : ∀ A (r1 : rng R1) (r2 : rng R2) (l : list A),
    sim r1 r2 → (shuffle R1 r1 l).1 = (shuffle R2 r2 l).1;
  agree_next : ∀ A (r1 : rng R1) (r2 : rng R2) (l : list A),
    sim r1 r2 → sim (shuffle R1 r1 l).2 (shuffle R2 r2 l).2
}.

(** The forest [m] with the generator state replaced. *)
Definition retag (m : Forest R1) (r : rng R2) : Forest R2 :=
  {| width := width m; height := height m; tree_density := tree_density m;
     running := running m; random := r; grid := grid m;
     agents := agents m; datacollector := datacollector m |}.

End TwoSourcesVocabulary.

(** ** Example forests *)

(** A row of three cells, all planted, scheduler in creation order: what
    [Forest(3, 1, 1.0)] builds from the scripted source. *)
Definition row_of_three : Forest fixed_order :=
  {| width := 3; height := 1; tree_density := float_one;
     running := true; random := (() : rng fixed_order);
     grid := {[ (0, 0) := 0%nat; (1, 0) := 1%nat; (2, 0) := 2%nat ]};
     agents := [ {| unique_id := 0; pos := (0, 0); condition := Infected |};
                 {| unique_id := 1; pos := (1, 0); condition := Healthy |};
                 {| unique_id := 2; pos := (2, 0); condition := Healthy |} ];
     datacollector := [] |}.

(** * Properties *)

(** ** Binary64 rounding *)

(** The exponent in the goal is below the largest one of the format. *)
Ltac fits_emax :=
  match goal with
  | |- context [?e <=? emax - prec] =>
      replace (e <=? emax - prec) with true
        by (symmetry; apply Z.leb_le; unfold emax, prec; lia)
  end.

Lemma fexp_64 (e : Z) : fexp prec emax e = Z.max (e - 53) (-1074).
Proof. reflexivity. Qed.

Lemma digits2_pos_bounds (p : positive) :
  2 ^ (Z.pos (digits2_pos p) - 1) ≤ Z.pos p < 2 ^ Z.pos (digits2_pos p).
Proof.
  induction p as [p IH|p IH|]; simpl digits2_pos; [| |simpl; lia];
    rewrite Pos2Z.inj_succ; set (d := Z.pos (digits2_pos p)) in *;
    rewrite Z.pow_succ_r by lia;
    replace (Z.succ d - 1) with (Z.succ (d - 1)) by lia;
    rewrite Z.pow_succ_r by lia; lia.
Qed.

Lemma shr_1_inv (m0 n : Z) (mrs : shr_record) :
  0 ≤ m0 → 0 ≤ n → shr_inv m0 n mrs → shr_inv m0 (n + 1) (shr_1 mrs).
Proof.
  intros Hm0 Hn [Hm Hf].
  assert (0 < 2 ^ n) as Hpow by (apply Z.pow_pos_nonneg; lia).
  assert (2 ^ (n + 1) = 2 ^ n * 2) as Hpow1 by (rewrite Z.pow_add_r by lia; lia).
  assert (m0 / 2 ^ (n + 1) = shr_m mrs / 2) as Hdiv.
  { rewrite Hpow1, Hm, Z.div_div by lia. done. }
  assert (m0 `mod` 2 ^ n ≠ 0 → m0 `mod` 2 ^ (n + 1) ≠ 0) as Hkeep.
  { intros Hne H0. apply Hne.
    apply Z.mod_divide in H0 as [q Hq]; [|lia].
    apply Z.mod_divide; [lia|]. exists (q * 2). lia. }
  assert (Z.odd (shr_m mrs) = true → m0 `mod` 2 ^ (n + 1) ≠ 0) as Hodd.
  { intros Ho H0. apply Z.mod_divide in H0 as [q Hq]; [|lia].
    rewrite Hm, Hq, Hpow1 in Ho.
    replace (q * (2 ^ n * 2)) with (q * 2 * 2 ^ n) in Ho by lia.
    rewrite Z.div_mul in Ho by lia.
    rewrite Z.mul_comm, Z.odd_mul in Ho. done. }
  assert (0 ≤ shr_m mrs) as Hpos.
  { rewrite Hm. apply Z.div_pos; lia. }
  destruct mrs as [m r s]. simpl in *. unfold shr_inv.
  destruct m as [|[p|p|]|p]; simpl; try lia.
  - split; [by rewrite Hdiv|]. auto.
  - split; [rewrite Hdiv; apply Z.div_unique with 1; lia|].
    intros _. by apply Hodd.
  - split; [rewrite Hdiv; apply Z.div_unique with 0; lia|]. auto.
  - split; [by rewrite Hdiv|]. intros _. by apply Hodd.
Qed.

Lemma iter_pos_shr_inv (p : positive) :
  ∀ (m0 n : Z) (mrs : shr_record),
    0 ≤ m0 → 0 ≤ n → shr_inv m0 n mrs →
    shr_inv m0 (n + Z.pos p) (SpecFloat.iter_pos shr_1 p mrs).
Proof.
  induction p as [p IH|p IH|]; intros m0 n mrs Hm0 Hn Hinv; simpl.
  - replace (n + Z.pos p~1) with (n + 1 + Z.pos p + Z.pos p) by lia.
    apply IH; [lia..|]. apply IH; [lia..|]. by apply shr_1_inv.
  - replace (n + Z.pos p~0) with (n + Z.pos p + Z.pos p) by lia.
    apply IH; [lia..|]. by apply IH.
  - by apply shr_1_inv.
Qed.

Lemma shr_inv_0 (m : Z) : shr_inv m 0 (shr_record_of_loc m loc_Exact).
Proof. split; simpl; [by rewrite Z.div_1_r | done]. Qed.

(** The first half of rounding: drop the bits below the target exponent. *)
Lemma shr_fexp_spec (m e : Z) :
  0 ≤ m →
  ∃ mrs n, shr_fexp prec emax m e loc_Exact = (mrs, e + n) ∧
           n = Z.max 0 (fexp prec emax (Zdigits2 m + e) - e) ∧
           shr_inv m n mrs.
Proof.
  intros Hm. unfold shr_fexp, shr.
  destruct (fexp prec emax (Zdigits2 m + e) - e) as [|p|p] eqn:Hn.
  - eexists _, 0. rewrite Z.add_0_r. split; [done|]. split; [lia|].
    apply shr_inv_0.
  - eexists _, (Z.pos p). split; [done|]. split; [lia|].
    apply (iter_pos_shr_inv p m 0); [lia..|]. apply shr_inv_0.
  - eexists _, 0. rewrite Z.add_0_r. split; [done|]. split; [lia|].
    apply shr_inv_0.
Qed.

Lemma round_nearest_even_bounds (mrs : shr_record) :
  let m1 := round_nearest_even (shr_m mrs) (loc_of_shr_record mrs) in
  shr_m mrs ≤ m1 ≤ shr_m mrs + 1 ∧
  (orb (shr_r mrs) (shr_s mrs) = false → m1 = shr_m mrs).
Proof.
  destruct mrs as [m [] []]; simpl; try destruct (Z.even m); split; done || lia.
Qed.

Lemma Zdigits2_bounds (m : Z) :
  0 < m → 2 ^ (Zdigits2 m - 1) ≤ m < 2 ^ Zdigits2 m.
Proof. destruct m as [|p|p]; try lia. intros _. apply digits2_pos_bounds. Qed.

Lemma pow2_lt_inv (x y : Z) : 0 ≤ x → 2 ^ x < 2 ^ y → x < y.
Proof.
  intros Hx Hlt. destruct (Z.lt_ge_cases x y) as [|Hge]; [done|].
  assert (0 ≤ y ∨ y < 0) as [Hy|Hy] by lia.
  - pose proof (Z.pow_le_mono_r 2 y x ltac:(lia) Hge). lia.
  - rewrite (Z.pow_neg_r 2 y) in Hlt by lia.
    pose proof (Z.pow_nonneg 2 x ltac:(lia)). lia.
Qed.

(** Truncating a value that lies between two integers on the grid. *)
Lemma shiftl_between (m e a b : Z) :
  e ≤ 0 → a * 2 ^ (- e) ≤ m ≤ b * 2 ^ (- e) → a ≤ Z.shiftl m e ≤ b.
Proof.
  intros He [Hlo Hhi]. rewrite Z.shiftl_div_pow2 by lia.
  assert (0 < 2 ^ (- e)) by (apply Z.pow_pos_nonneg; lia). split.
  - apply Z.div_le_lower_bound; lia.
  - apply Z.div_le_upper_bound; lia.
Qed.

(** Rounding a positive number that lies between two integers below 2^53
    gives a float whose truncation lies between them as well. *)
Lemma binary_round_aux_between (m : positive) (e a b : Z) :
  e ≤ 0 → 0 ≤ a → b < 2 ^ 53 →
  a * 2 ^ (- e) ≤ Z.pos m ≤ b * 2 ^ (- e) →
  ∃ k, int_of_float (binary_round_aux prec emax false (Z.pos m) e loc_Exact)
       = Ok k ∧ a ≤ k ≤ b.
Proof.
  intros He Ha Hb [Hlo Hhi]. unfold binary_round_aux.
  destruct (shr_fexp_spec (Z.pos m) e) as (mrs & n & -> & Hn & [Hm' Hflags]);
    [lia|].
  pose proof (round_nearest_even_bounds mrs) as [Hm1 Hexact].
  set (m1 := round_nearest_even (shr_m mrs) (loc_of_shr_record mrs)) in *.
  rewrite fexp_64 in Hn.
  pose proof (Zdigits2_bounds (Z.pos m) ltac:(lia)) as [Hd_lo Hd_hi].
  set (d := Zdigits2 (Z.pos m)) in *.
  assert (0 < d) as Hd by (unfold d; simpl; lia).
  assert (0 ≤ n) as Hn0 by lia.
  assert (0 < 2 ^ n) as Hpn by (apply Z.pow_pos_nonneg; lia).
  assert (0 < 2 ^ (- e)) as Hpe by (apply Z.pow_pos_nonneg; lia).
  (* the target exponent is not positive *)
  assert (d + e - 53 ≤ 0) as Hde.
  { assert (2 ^ (d - 1) < 2 ^ (53 - e)) as Hlt.
    { replace (53 - e) with (53 + - e) by lia. rewrite Z.pow_add_r by lia. nia. }
    apply pow2_lt_inv in Hlt; lia. }
  set (e' := e + n) in *.
  assert (e' ≤ 0) as He' by lia.
  assert (-1074 ≤ e') as He'min by lia.
  assert (0 < 2 ^ (- e')) as Hpe' by (apply Z.pow_pos_nonneg; lia).
  assert (2 ^ (- e) = 2 ^ (- e') * 2 ^ n) as Hsplit.
  { rewrite <-Z.pow_add_r by lia. f_equal. lia. }
  assert (0 ≤ shr_m mrs) as Hm'0 by (rewrite Hm'; apply Z.div_pos; lia).
  (* the shifted mantissa has at most 53 bits *)
  assert (shr_m mrs < 2 ^ 53) as Hm'53.
  { rewrite Hm'. apply Z.div_lt_upper_bound; [lia|].
    eapply Z.lt_le_trans; [exact Hd_hi|].
    rewrite <-Z.pow_add_r by lia. apply Z.pow_le_mono_r; lia. }
  (* both integers stay on their side *)
  assert (a * 2 ^ (- e') ≤ m1 ≤ b * 2 ^ (- e')) as [HA HB].
  { split.
    - apply Z.le_trans with (shr_m mrs); [|lia].
      rewrite Hm'. apply Z.div_le_lower_bound; [lia|]. nia.
    - destruct (orb (shr_r mrs) (shr_s mrs)) eqn:Hfl.
      + assert (Z.pos m ≠ b * 2 ^ (- e') * 2 ^ n) as Hne.
        { intros Heq. apply (Hflags eq_refl). rewrite Heq. apply Z.mod_mul. lia. }
        assert (shr_m mrs < b * 2 ^ (- e')); [|lia].
        rewrite Hm'. apply Z.div_lt_upper_bound; [lia|]. nia.
      + rewrite (Hexact eq_refl), Hm'.
        apply Z.div_le_upper_bound; [lia|]. nia. }
  destruct (shr_fexp_spec m1 e') as (mrs2 & n2 & -> & Hn2 & [Hm2 _]); [lia|].
  rewrite fexp_64 in Hn2.
  destruct (decide (m1 = 0)) as [H0|H0].
  { (* rounded down to zero *)
    rewrite H0 in *. simpl in Hn2.
    assert (n2 = 0) as -> by lia.
    rewrite Hm2. simpl. exists 0. split; [done|]. nia. }
  pose proof (Zdigits2_bounds m1 ltac:(lia)) as [Hd1_lo Hd1_hi].
  set (d1 := Zdigits2 m1) in *.
  assert (d1 ≤ 54) as Hd1.
  { assert (2 ^ (d1 - 1) < 2 ^ 54) as Hlt by (change (2 ^ 54) with (2 * 2 ^ 53); lia).
    destruct (decide (0 ≤ d1 - 1)) as [Hge|]; [|lia].
    apply pow2_lt_inv in Hlt; lia. }
  destruct (decide (d1 ≤ 53)) as [Hle|Hgt].
  - (* no second shift *)
    assert (n2 = 0) as -> by lia.
    rewrite Z.add_0_r, Hm2, Z.div_1_r.
    destruct m1 as [|q|q] eqn:Hq; try lia.
    fits_emax.
    simpl. eexists. split; [done|]. by apply shiftl_between.
  - (* the mantissa was rounded up to 2^53 *)
    assert (d1 = 54) as Hd54 by lia.
    assert (m1 = 2 ^ 53) as Hm1_53.
    { rewrite Hd54 in Hd1_lo. change (2 ^ (54 - 1)) with (2 ^ 53) in Hd1_lo. lia. }
    assert (n2 = 1) as -> by lia.
    rewrite Hm2, Hm1_53.
    change (2 ^ 53 `div` 2 ^ 1) with (Z.pos (2 ^ 52)).
    assert (e' < 0) as He'neg.
    { destruct (decide (e' = 0)) as [E|]; [|lia].
      rewrite E in HB. simpl in HB. lia. }
    fits_emax.
    simpl. eexists. split; [done|].
    apply shiftl_between; [lia|].
    replace (- (e' + 1)) with (- e' - 1) by lia.
    assert (2 ^ (- e') = 2 * 2 ^ (- e' - 1)) as Hhalf.
    { rewrite <-Z.pow_succ_r by lia. f_equal. lia. }
    rewrite Hm1_53 in HA, HB. change (2 ^ 53) with (2 * Z.pos (2 ^ 52)) in HA, HB.
    nia.
Qed.

(** A number that already fits the format is left alone. *)
Lemma binary_round_aux_exact (m : positive) (e : Z) :
  fexp prec emax (Z.pos (digits2_pos m) + e) ≤ e → e ≤ 971 →
  binary_round_aux prec emax false (Z.pos m) e loc_Exact = S754_finite false m e.
Proof.
  intros Hfexp He.
  assert (shr_fexp prec emax (Z.pos m) e loc_Exact
          = ({| shr_m := Z.pos m; shr_r := false; shr_s := false |}, e)) as Hshr.
  { unfold shr_fexp, shr. simpl Zdigits2.
    destruct (fexp prec emax (Z.pos (digits2_pos m) + e) - e) eqn:E; [done|lia|done]. }
  unfold binary_round_aux. rewrite Hshr. simpl. rewrite Hshr. simpl.
  fits_emax.
  done.
Qed.

Lemma iter_xO_spec (k p : positive) :
  Z.pos (Pos.iter xO p k) = Z.pos p * 2 ^ Z.pos k ∧
  Z.pos (digits2_pos (Pos.iter xO p k)) = Z.pos (digits2_pos p) + Z.pos k.
Proof.
  induction k as [|k [IH1 IH2]] using Pos.peano_ind.
  - simpl. split; lia.
  - rewrite Pos.iter_succ. simpl digits2_pos.
    rewrite Pos2Z.inj_xO, IH1, !Pos2Z.inj_succ, IH2, Z.pow_succ_r by lia.
    split; lia.
Qed.

(** [float(n)] is exact for an [int] below 2^53. *)
Lemma float_of_int_exact (n : Z) :
  0 < n < 2 ^ 53 →
  ∃ mz ez, float_of_int n = Ok (S754_finite false mz ez) ∧
           Z.pos mz = n * 2 ^ (- ez) ∧ ez ≤ 0.
Proof.
  intros [Hn0 Hn53]. destruct n as [|p|p]; try lia.
  pose proof (digits2_pos_bounds p) as [Hlo Hhi].
  assert (Z.pos (digits2_pos p) ≤ 53) as Hd.
  { assert (2 ^ (Z.pos (digits2_pos p) - 1) < 2 ^ 53) as Hlt by lia.
    apply pow2_lt_inv in Hlt; lia. }
  unfold float_of_int, binary_normalize, binary_round, shl_align.
  rewrite fexp_64.
  destruct (Z.max (Z.pos (digits2_pos p) + 0 - 53) (-1074) - 0) as [|k|k] eqn:Hk;
    try lia.
  - rewrite binary_round_aux_exact; [|rewrite fexp_64; lia|lia].
    exists p, 0. split; [done|]. simpl. lia.
  - destruct (iter_xO_spec k p) as [Hval Hdig].
    rewrite binary_round_aux_exact; [|rewrite fexp_64; lia|lia].
    eexists _, _. split; [done|]. split; [|lia].
    rewrite Hval. f_equal. f_equal. lia.
Qed.

(** A valid density: zero, or a positive double of value at most one. *)
Lemma density_valid_inv (d : float) :
  density_valid d →
  (∃ s, d = S754_zero s) ∨
  (∃ my ey, d = S754_finite false my ey ∧ ey < 0 ∧ Z.pos my ≤ 2 ^ (- ey)).
Proof.
  intros (Hvalid & Hge & Hle).
  destruct d as [s|s| |s my ey]; [eauto|by destruct s|done|].
  right. destruct s; [done|]. exists my, ey. split; [done|].
  unfold valid_binary, bounded, canonical_mantissa in Hvalid.
  apply andb_prop in Hvalid as [Hcanon _]. apply Z.eqb_eq in Hcanon.
  rewrite fexp_64 in Hcanon.
  pose proof (digits2_pos_bounds my) as [_ Hhi].
  unfold SFleb, SFcompare, float_one in Hle.
  destruct (Z.compare_spec ey (-52)) as [->|Hlt|Hgt]; [| |done].
  - split; [lia|].
    rewrite Pos.compare_cont_spec in Hle. simpl in Hle.
    destruct (Pos.compare_spec my 4503599627370496) as [->|Hm|Hm]; [done| |done].
    change (2 ^ (- -52)) with 4503599627370496.
    apply Z.lt_le_incl. by apply Pos2Z.pos_lt_pos.
  - split; [lia|].
    assert (2 ^ Z.pos (digits2_pos my) ≤ 2 ^ (- ey)); [|lia].
    apply Z.pow_le_mono_r; lia.
Qed.

(** The count [int(n * d)] against the exact product, for a grid of fewer
    than 2^53 cells and a density in [0, 1]: it is the floor of the exact
    product or one more, and never more than the number of cells. *)
Lemma num_of_agents_bounds (w h : Z) (d : float) :
  0 < w * h < 2 ^ 53 → density_valid d →
  ∃ k, num_of_agents w h d = Ok k ∧
       floor_mul (w * h) d ≤ k ≤ floor_mul (w * h) d + 1 ∧
       0 ≤ k ≤ w * h.
Proof.
  intros Hn Hd. unfold num_of_agents, int_mul_float.
  destruct (float_of_int_exact (w * h) Hn) as (mz & ez & -> & Hmz & Hez).
  simpl. destruct (density_valid_inv d Hd) as [[s ->]|(my & ey & -> & Hey & Hmy)].
  { simpl. exists 0. split; [done|]. lia. }
  unfold floor_mul. simpl SFmul.
  set (n := w * h) in *. set (a := Z.shiftl (n * Z.pos my) ey).
  assert (0 < 2 ^ (- ey)) as Hpey by (apply Z.pow_pos_nonneg; lia).
  assert (0 < 2 ^ (- ez)) as Hpez by (apply Z.pow_pos_nonneg; lia).
  assert (2 ^ (- (ez + ey)) = 2 ^ (- ez) * 2 ^ (- ey)) as Hsplit.
  { rewrite <-Z.pow_add_r by lia. f_equal. lia. }
  assert (a * 2 ^ (- ey) ≤ n * Z.pos my < (a + 1) * 2 ^ (- ey)) as [Ha_lo Ha_hi].
  { unfold a. rewrite Z.shiftl_div_pow2 by lia.
    pose proof (Z.div_mod (n * Z.pos my) (2 ^ (- ey)) ltac:(lia)).
    pose proof (Z.mod_pos_bound (n * Z.pos my) (2 ^ (- ey)) ltac:(lia)). lia. }
  assert (0 ≤ a) as Ha0.
  { unfold a. rewrite Z.shiftl_div_pow2 by lia. apply Z.div_pos; lia. }
  assert (a ≤ n) as Han.
  { assert (a * 2 ^ (- ey) ≤ n * 2 ^ (- ey)) by nia. nia. }
  destruct (binary_round_aux_between (mz * my) (ez + ey) a n)
    as (k & Hk & Hk_lo & Hk_hi); [lia..| |].
  { rewrite Pos2Z.inj_mul, Hmz, Hsplit. split; nia. }
  exists k. split; [done|]. split; [|lia]. split; [done|].
  destruct (decide (a + 1 ≤ n)) as [Hfit|]; [|lia].
  destruct (binary_round_aux_between (mz * my) (ez + ey) a (a + 1))
    as (k' & Hk' & _ & Hk'_hi); [lia..| |].
  { rewrite Pos2Z.inj_mul, Hmz, Hsplit. split; nia. }
  congruence.
Qed.

(** Rounding a positive number keeps the sign and never gives a NaN. *)
Lemma binary_round_aux_shape (s : bool) (m : positive) (e : Z) :
  match binary_round_aux prec emax s (Z.pos m) e loc_Exact with
  | S754_zero s' | S754_infinity s' | S754_finite s' _ _ => s' = s
  | S754_nan => False
  end.
Proof.
  unfold binary_round_aux.
  destruct (shr_fexp_spec (Z.pos m) e) as (mrs & n & -> & Hn & [Hm' _]); [lia|].
  pose proof (round_nearest_even_bounds mrs) as [[Hm1 _] _].
  set (m1 := round_nearest_even (shr_m mrs) (loc_of_shr_record mrs)) in *.
  assert (0 ≤ shr_m mrs) as Hpos.
  { rewrite Hm'. apply Z.div_pos; [lia|]. apply Z.pow_pos_nonneg; lia. }
  destruct (shr_fexp_spec m1 (e + n)) as (mrs2 & n2 & -> & Hn2 & [Hm2 _]); [lia|].
  assert (0 ≤ shr_m mrs2) as Hpos2.
  { rewrite Hm2. apply Z.div_pos; [lia|]. apply Z.pow_pos_nonneg; lia. }
  destruct (shr_m mrs2) as [|q|q]; [done| |lia].
  by destruct (_ <=? _).
Qed.

(** The count a NaN or infinite density gives, and what else can happen. *)
Lemma num_of_agents_cases (w h : Z) (d : float) :
  0 < w * h < 2 ^ 53 →
  ∃ f, int_mul_float (w * h) d = Ok f ∧
       num_of_agents w h d = int_of_float f ∧
       match d with
       | S754_nan => f = S754_nan
       | S754_infinity s => f = S754_infinity s
       | S754_zero s => f = S754_zero s
       | S754_finite s _ _ =>
           match f with
           | S754_zero s' | S754_infinity s' | S754_finite s' _ _ => s' = s
           | S754_nan => False
           end
       end.
Proof.
  intros Hn. unfold num_of_agents, int_mul_float.
  destruct (float_of_int_exact (w * h) Hn) as (mz & ez & -> & _).
  simpl. eexists. split; [done|]. split; [done|].
  destruct d as [s|s| |s my ey]; simpl; [done..|].
  apply (binary_round_aux_shape s (mz * my) (ez + ey)).
Qed.

(** When the exact product is an integer, the count is that integer. *)
Lemma num_of_agents_integer (w h : Z) (d : float) :
  0 < w * h < 2 ^ 53 → density_valid d → mul_is_integer (w * h) d →
  num_of_agents w h d = Ok (floor_mul (w * h) d).
Proof.
  intros Hn Hd Hint. unfold num_of_agents, int_mul_float.
  destruct (float_of_int_exact (w * h) Hn) as (mz & ez & -> & Hmz & Hez).
  simpl. destruct (density_valid_inv d Hd) as [[s ->]|(my & ey & -> & Hey & Hmy)].
  { done. }
  unfold floor_mul. simpl SFmul.
  set (n := w * h) in *. set (a := Z.shiftl (n * Z.pos my) ey).
  assert (0 < 2 ^ (- ey)) as Hpey by (apply Z.pow_pos_nonneg; lia).
  assert (0 < 2 ^ (- ez)) as Hpez by (apply Z.pow_pos_nonneg; lia).
  assert (2 ^ (- (ez + ey)) = 2 ^ (- ez) * 2 ^ (- ey)) as Hsplit.
  { rewrite <-Z.pow_add_r by lia. f_equal. lia. }
  assert (n * Z.pos my = a * 2 ^ (- ey)) as Ha.
  { unfold a. rewrite Z.shiftl_div_pow2 by lia.
    destruct Hint as [?|Hmod]; [lia|].
    pose proof (Z.div_mod (n * Z.pos my) (2 ^ (- ey)) ltac:(lia)). lia. }
  assert (0 ≤ a) as Ha0.
  { unfold a. rewrite Z.shiftl_div_pow2 by lia. apply Z.div_pos; lia. }
  assert (a ≤ n) as Han.
  { assert (a * 2 ^ (- ey) ≤ n * 2 ^ (- ey)) by nia. nia. }
  destruct (binary_round_aux_between (mz * my) (ez + ey) a a)
    as (k & Hk & Hk_lo & Hk_hi); [lia..| |].
  { rewrite Pos2Z.inj_mul, Hmz, Hsplit. split; nia. }
  rewrite Hk. f_equal. lia.
Qed.

(** For a count that is not negative, [int] is the floor. *)
Lemma int_of_float_floor (f : float) (n : Z) :
  match f with S754_finite true _ _ => False | _ => True end →
  int_of_float f = Ok n → n = floor_float f.
Proof.
  destruct f as [s|s| |[] m e]; simpl; try done; by intros _ [= <-].
Qed.

(** ** The model *)

Section Properties.
Context {R : RandomSource}.
Implicit Types (m : Forest R) (t u : Ash_Tree) (ts : list Ash_Tree)
  (c : Condition) (i j self : nat) (p q : Z * Z).

(** ** The grid *)

Lemma elem_of_get_neighborhood (w h : Z) p q :
  q ∈ get_neighborhood w h p ↔ in_bounds w h q ∧ moore_adjacent q p.
Proof.
  unfold get_neighborhood, in_bounds, moore_adjacent.
  rewrite list_elem_of_filter, list_elem_of_bind.
  split.
  - intros [Hne (nx & Hy & Hx)].
    apply list_elem_of_bind in Hy as (ny & Hq & Hy).
    apply list_elem_of_singleton in Hq as ->.
    apply elem_of_seqZ in Hx, Hy. simpl in *.
    split; [lia | split; [done | lia]].
  - intros [[Hx Hy] (Hne & Hdx & Hdy)]. split; [done|].
    exists q.1. split.
    + apply list_elem_of_bind. exists q.2. split.
      * destruct q; simpl. apply list_elem_of_singleton. done.
      * apply elem_of_seqZ. lia.
    + apply elem_of_seqZ. lia.
Qed.

Lemma elem_of_get_neighbors (w h : Z) (g : gmap (Z * Z) nat) p j :
  j ∈ get_neighbors w h g p ↔
  ∃ q, in_bounds w h q ∧ moore_adjacent q p ∧ g !! q = Some j.
Proof.
  unfold get_neighbors. rewrite list_elem_of_omap.
  split.
  - intros (q & Hq & Hg). apply elem_of_get_neighborhood in Hq as [? ?]. eauto.
  - intros (q & ? & ? & Hg). exists q. by rewrite elem_of_get_neighborhood.
Qed.

(** ** One visit *)

Lemma catch_idemp t : catch (catch t) = catch t.
Proof. unfold catch. destruct t as [? ? []]; simpl; done. Qed.

Lemma infect_alter ts j : infect ts j = alter catch j ts.
Proof.
  unfold infect, catch. destruct (ts !! j) as [t|] eqn:Hj.
  - case_decide as Hc.
    + apply list_eq. intros k. destruct (decide (k = j)) as [->|].
      * rewrite list_lookup_insert_eq by (by eapply lookup_lt_Some).
        rewrite list_lookup_alter_eq, Hj. simpl. by rewrite decide_True.
      * rewrite list_lookup_insert_ne, list_lookup_alter_ne by done. done.
    + apply list_eq. intros k. destruct (decide (k = j)) as [->|].
      * rewrite list_lookup_alter_eq, Hj. simpl. by rewrite decide_False.
      * by rewrite list_lookup_alter_ne.
  - apply list_eq. intros k. destruct (decide (k = j)) as [->|].
    + by rewrite list_lookup_alter_eq, Hj.
    + by rewrite list_lookup_alter_ne.
Qed.

Lemma foldl_infect_lookup ns ts j :
  foldl infect ts ns !! j =
  (if decide (j ∈ ns) then catch else id) <$> ts !! j.
Proof.
  revert ts. induction ns as [|n ns IH]; intros ts; simpl.
  - destruct (decide (j ∈ [])) as [H|_]; [by apply not_elem_of_nil in H|].
    by destruct (ts !! j).
  - rewrite IH, infect_alter. destruct (decide (j = n)) as [->|Hne].
    + rewrite list_lookup_alter_eq.
      destruct (decide (n ∈ n :: ns)) as [_|H];
        [|by destruct H; apply elem_of_cons; left].
      destruct (ts !! n) as [t|]; simpl; [|by case_decide].
      case_decide; simpl; [by rewrite catch_idemp | done].
    + rewrite list_lookup_alter_ne by done.
      destruct (decide (j ∈ ns)) as [Hin|Hin], (decide (j ∈ n :: ns)) as [Hin'|Hin'];
        try done.
      * destruct Hin'. by apply elem_of_cons; right.
      * apply elem_of_cons in Hin' as [?|?]; done.
Qed.

(** The store after the visit of [self], tree by tree. *)
Lemma maybe_spread_infection_lookup m self t j :
  agents m !! self = Some t → condition t = Infected →
  agents (maybe_spread_infection self m) !! j =
  if decide (j = self) then Some (set_condition Dead t)
  else (if decide (j ∈ get_neighbors (width m) (height m) (grid m) (pos t))
        then catch else id) <$> agents m !! j.
Proof.
  intros Hself Hc. unfold maybe_spread_infection.
  rewrite Hself, decide_True by done. simpl.
  case_decide as Hj.
  - subst j. rewrite list_lookup_alter_eq, foldl_infect_lookup, Hself. simpl.
    case_decide; simpl; [|done].
    unfold catch. rewrite decide_False; [done|]. by rewrite Hc.
  - by rewrite list_lookup_alter_ne, foldl_infect_lookup.
Qed.

Lemma maybe_spread_infection_idle m self :
  (∀ t, agents m !! self = Some t → condition t ≠ Infected) →
  maybe_spread_infection self m = m.
Proof.
  intros H. unfold maybe_spread_infection.
  destruct (agents m !! self) as [t|]; [|done].
  rewrite decide_False; [done|]. by apply H.
Qed.

(** A visit touches nothing but the conditions of the trees. *)
Lemma catch_pos t : pos (catch t) = pos t.
Proof. unfold catch. by case_decide. Qed.

Lemma maybe_spread_infection_sites m self :
  pos <$> agents (maybe_spread_infection self m) = pos <$> agents m.
Proof.
  destruct (agents m !! self) as [t|] eqn:Hself.
  - destruct (decide (condition t = Infected)) as [Hc|Hc].
    + apply list_eq. intros j. rewrite !list_lookup_fmap.
      rewrite (maybe_spread_infection_lookup m self t j Hself Hc).
      case_decide as Hj; [subst j; by rewrite Hself|].
      destruct (agents m !! j) as [u|]; simpl; [|done].
      case_decide; [by rewrite catch_pos | done].
    + rewrite maybe_spread_infection_idle; [done|]. congruence.
  - rewrite maybe_spread_infection_idle; [done|]. congruence.
Qed.

Lemma maybe_spread_infection_frame m self :
  let m' := maybe_spread_infection self m in
  width m' = width m ∧ height m' = height m ∧ grid m' = grid m ∧
  running m' = running m ∧ random m' = random m ∧
  datacollector m' = datacollector m ∧
  tree_density m' = tree_density m.
Proof.
  unfold maybe_spread_infection.
  destruct (agents m !! self) as [t|]; [|done]. by case_decide.
Qed.

Lemma visit_sites order m : pos <$> agents (visit order m) = pos <$> agents m.
Proof.
  revert m. induction order as [|i order IH]; intros m; [done|].
  simpl. rewrite IH. apply maybe_spread_infection_sites.
Qed.

Lemma visit_frame order m :
  let m' := visit order m in
  width m' = width m ∧ height m' = height m ∧ grid m' = grid m ∧
  running m' = running m ∧ random m' = random m ∧
  datacollector m' = datacollector m ∧
  tree_density m' = tree_density m.
Proof.
  revert m. induction order as [|i order IH]; intros m; [done|].
  simpl. specialize (IH (Ash_Tree_step i m)). simpl in IH.
  destruct IH as (->&->&->&->&->&->&->).
  apply maybe_spread_infection_frame.
Qed.

Lemma visit_length order m : length (agents (visit order m)) = length (agents m).
Proof.
  rewrite <-(length_fmap pos (agents (visit order m))), visit_sites.
  apply length_fmap.
Qed.

Lemma visit_app order1 order2 m :
  visit (order1 ++ order2) m = visit order2 (visit order1 m).
Proof. apply foldl_app. Qed.

(** ** Grid and scheduler agree *)

Lemma wf_forest_sites m m' :
  width m' = width m → height m' = height m → grid m' = grid m →
  pos <$> agents m' = pos <$> agents m →
  wf_forest m → wf_forest m'.
Proof.
  intros Hw Hh Hg Hs [Hocc Hb].
  assert (∀ i, pos <$> agents m' !! i = pos <$> agents m !! i) as Hlk.
  { intros i. by rewrite <-!list_lookup_fmap, Hs. }
  split.
  - intros p i. by rewrite Hg, Hlk.
  - intros i t Hi. rewrite Hw, Hh.
    specialize (Hlk i). rewrite Hi in Hlk. simpl in Hlk.
    destruct (agents m !! i) as [u|] eqn:Hu; [|done].
    simpl in Hlk. injection Hlk as ->. by eapply Hb.
Qed.

Lemma wf_forest_visit order m : wf_forest m → wf_forest (visit order m).
Proof.
  destruct (visit_frame order m) as (?&?&?&_).
  apply wf_forest_sites; auto using visit_sites.
Qed.

Lemma wf_neighbors m t self j :
  wf_forest m → agents m !! self = Some t →
  j ∈ get_neighbors (width m) (height m) (grid m) (pos t) ↔
  ∃ u, agents m !! j = Some u ∧ moore_adjacent (pos u) (pos t).
Proof.
  intros [Hocc Hb] Hself. rewrite elem_of_get_neighbors. split.
  - intros (q & _ & Hadj & Hg). apply Hocc in Hg.
    destruct (agents m !! j) as [u|]; [|done].
    simpl in Hg. injection Hg as <-. eauto.
  - intros (u & Hu & Hadj). exists (pos u). split; [by eapply Hb|].
    split; [done|]. apply Hocc. by rewrite Hu.
Qed.

(** ** Initialisation *)

Lemma elem_of_all_cells (w h : Z) p : p ∈ all_cells w h ↔ in_bounds w h p.
Proof.
  unfold all_cells, range, in_bounds. rewrite list_elem_of_bind. split.
  - intros (x & Hy & Hx). apply list_elem_of_bind in Hy as (y & Hp & Hy).
    apply list_elem_of_singleton in Hp as ->.
    apply elem_of_seqZ in Hx, Hy. simpl. lia.
  - intros [Hx Hy]. exists p.1. split; [|apply elem_of_seqZ; lia].
    apply list_elem_of_bind. exists p.2. split; [|apply elem_of_seqZ; lia].
    destruct p. by apply list_elem_of_singleton.
Qed.

Lemma NoDup_all_cells (w h : Z) : NoDup (all_cells w h).
Proof.
  unfold all_cells, range. apply NoDup_bind; [| |apply NoDup_seqZ].
  - intros x1 x2 p _ _ H1 H2.
    apply list_elem_of_bind in H1 as (y1 & H1 & _).
    apply list_elem_of_bind in H2 as (y2 & H2 & _).
    apply list_elem_of_singleton in H1, H2. congruence.
  - intros x _. apply NoDup_bind; [| |apply NoDup_seqZ].
    + intros y1 y2 p _ _ H1 H2.
      apply list_elem_of_singleton in H1, H2. congruence.
    + intros y _. apply NoDup_singleton.
Qed.

Lemma length_all_cells (w h : Z) :
  length (all_cells w h) = (Z.to_nat w * Z.to_nat h)%nat.
Proof.
  unfold all_cells, range. rewrite <-(length_seqZ 0 w).
  induction (seqZ 0 w) as [|x xs IH]; [done|].
  rewrite bind_cons, length_app, IH. simpl. f_equal.
  rewrite <-(length_seqZ 0 h). clear.
  induction (seqZ 0 h) as [|y ys IH]; [done|].
  rewrite bind_cons, length_app, IH. done.
Qed.

Lemma add_tree_ok ps m k p :
  ps !! k = Some p → in_bounds (width m) (height m) p → grid m !! p = None →
  add_tree ps m k =
  Ok {| width := width m; height := height m;
        tree_density := tree_density m; running := running m;
        random := random m; grid := <[p := k]> (grid m);
        agents := agents m ++ [new_tree k p];
        datacollector := datacollector m |}.
Proof.
  intros Hk Hb Hg. unfold add_tree, place_agent. rewrite Hk.
  destruct p as [x y]. rewrite decide_True by done. rewrite Hg. done.
Qed.

Lemma create_trees_ok ps m0 :
  NoDup ps → Forall (in_bounds (width m0) (height m0)) ps →
  ∀ n k m, (k + n ≤ length ps)%nat → created ps m0 k m →
  ∃ m', for_each (add_tree ps) m (seq k n) = Ok m' ∧ created ps m0 (k + n) m'.
Proof.
  intros Hnd Hb. induction n as [|n IH]; intros k m Hlen Hm.
  { exists m. by rewrite Nat.add_0_r. }
  destruct (lookup_lt_is_Some_2 ps k) as [p Hp]; [lia|].
  destruct Hm as [Hw Hh Hd Hr Hs Hrows Hag Hgr].
  assert (grid m !! p = None) as Hfree.
  { destruct (grid m !! p) as [i|] eqn:Hi; [|done].
    apply Hgr in Hi as [Hlt Hi].
    pose proof (NoDup_lookup _ _ _ _ Hnd Hi Hp). lia. }
  simpl. rewrite (add_tree_ok ps m k p); [|done| |done].
  2:{ rewrite Hw, Hh. eapply Forall_lookup_1; eauto. }
  simpl. replace (k + S n)%nat with (S k + n)%nat by lia.
  apply IH; [lia|]. split; simpl; try done.
  - rewrite (take_S_r _ _ p), imap_app, Hag by done. simpl.
    rewrite length_take_le by lia. by rewrite Nat.add_0_r.
  - intros q i. destruct (decide (q = p)) as [->|Hne].
    + rewrite lookup_insert_eq. split.
      * intros [= <-]. split; [lia|done].
      * intros [Hlt Hi]. f_equal. eapply NoDup_lookup; eauto.
    + rewrite lookup_insert_ne by done. rewrite Hgr. split.
      * intros [? ?]. split; [lia|done].
      * intros [Hlt Hi]. split; [|done].
        destruct (decide (i = k)) as [->|]; [congruence|lia].
Qed.

Lemma create_trees_short ps m n k :
  (length ps < k + n)%nat → (0 < n)%nat → (k ≤ length ps)%nat →
  (∀ m', for_each (add_tree ps) m (seq k n) ≠ Ok m').
Proof.
  revert m k. induction n as [|n IH]; intros m k Hlen Hn Hk m'; [lia|].
  simpl. destruct (add_tree ps m k) as [m1|e] eqn:Hadd; simpl; [|done].
  unfold add_tree in Hadd. destruct (ps !! k) as [p|] eqn:Hp; [|done].
  apply lookup_lt_Some in Hp.
  apply IH; lia.
Qed.

Lemma created_wf ps m0 k m :
  Forall (in_bounds (width m0) (height m0)) ps →
  created ps m0 k m → wf_forest m.
Proof.
  intros Hb [Hw Hh _ _ _ _ Hag Hgr]. split.
  - intros p i. rewrite Hgr, Hag, list_lookup_imap, <-option_fmap_compose.
    pose proof (lookup_take_Some ps k i p) as Htake.
    destruct (take k ps !! i) as [q|]; simpl.
    + split.
      * intros [Hlt Hi]. f_equal. apply proj2 in Htake.
        specialize (Htake (conj Hi Hlt)). congruence.
      * intros [= ->]. destruct Htake as [Htake _].
        destruct (Htake eq_refl). done.
    + split; [|done]. intros [Hlt Hi].
      by specialize (proj2 Htake (conj Hi Hlt)).
  - intros i t. rewrite Hag, list_lookup_imap, Hw, Hh.
    destruct (take k ps !! i) as [p|] eqn:Hp; [|done].
    intros [= <-]. simpl. apply lookup_take_Some in Hp as [Hp _].
    eapply Forall_lookup_1; eauto.
Qed.

Lemma Forest_init_unfold seed (w h : Z) d :
  Forest_init R seed w h d =
  let '(ps, r) := shuffle R seed (all_cells w h) in
  n ←! num_of_agents w h d;
  for_each (add_tree ps) (Build_Forest R w h d true r ∅ [] [])
    (seq 0 (Z.to_nat n)).
Proof. reflexivity. Qed.

(** [Forest.__init__] succeeds whenever the computed count fits the grid,
    and then the scheduler holds the trees of the first cells of the
    shuffled list. *)
Lemma Forest_init_ok seed (w h : Z) d n :
  num_of_agents w h d = Ok n →
  (Z.to_nat n ≤ Z.to_nat w * Z.to_nat h)%nat →
  ∃ m, Forest_init R seed w h d = Ok m ∧
       agents m = imap new_tree
                    (take (Z.to_nat n) (shuffle R seed (all_cells w h)).1) ∧
       wf_forest m ∧ width m = w ∧ height m = h ∧ tree_density m = d ∧
       running m = true ∧ datacollector m = [] ∧
       random m = (shuffle R seed (all_cells w h)).2.
Proof.
  intros Hn Hfit. rewrite Forest_init_unfold.
  pose proof (shuffle_perm R _ seed (all_cells w h)) as Hperm.
  destruct (shuffle R seed (all_cells w h)) as [ps r]. simpl in *.
  rewrite Hn. simpl.
  set (m0 := Build_Forest R w h d true r ∅ [] []).
  assert (Forall (in_bounds (width m0) (height m0)) ps) as Hb.
  { apply Forall_forall. intros p Hp. apply (elem_of_all_cells w h).
    by rewrite <-Hperm. }
  destruct (create_trees_ok ps m0) with (n := Z.to_nat n) (k := 0%nat) (m := m0)
    as (m & Hm & Hc); [|done| | |].
  - rewrite Hperm. apply NoDup_all_cells.
  - rewrite Hperm, length_all_cells. lia.
  - split; try done. intros p i. simpl. rewrite lookup_empty.
    split; [done|lia].
  - exists m. split; [done|]. simpl in Hc.
    pose proof (created_wf _ _ _ _ Hb Hc). by destruct Hc.
Qed.

Lemma Forest_init_agents seed (w h : Z) d m :
  Forest_init R seed w h d = Ok m →
  ∃ n, num_of_agents w h d = Ok n ∧
       (Z.to_nat n ≤ Z.to_nat w * Z.to_nat h)%nat.
Proof.
  rewrite Forest_init_unfold.
  pose proof (shuffle_perm R _ seed (all_cells w h)) as Hperm.
  destruct (shuffle R seed (all_cells w h)) as [ps r]. simpl in *.
  destruct (num_of_agents w h d) as [n|e]; simpl; [|done].
  intros Hm. exists n. split; [done|].
  destruct (decide (Z.to_nat n ≤ Z.to_nat w * Z.to_nat h)%nat); [done|].
  exfalso. eapply (create_trees_short ps _ (Z.to_nat n) 0); [| | |exact Hm].
  - rewrite Hperm, length_all_cells. lia.
  - lia.
  - lia.
Qed.

(** ** Conditions only move forward *)

Lemma later_refl u : later u u.
Proof. by repeat split. Qed.

Lemma later_trans u1 u2 u3 : later u1 u2 → later u2 u3 → later u1 u3.
Proof.
  intros (?&?&?) (?&?&?). repeat split; [congruence..|lia].
Qed.

Lemma later_Dead u u' : later u u' → condition u = Dead → u' = u.
Proof.
  intros (Hid & Hpos & Hr) Hc. rewrite Hc in Hr.
  destruct u as [i p c], u' as [i' p' c']. simpl in *. subst.
  f_equal. destruct c'; simpl in *; done || lia.
Qed.

Lemma maybe_spread_infection_forward m self j u :
  agents m !! j = Some u →
  ∃ u', agents (maybe_spread_infection self m) !! j = Some u' ∧
        unique_id u' = unique_id u ∧ pos u' = pos u ∧
        forward_step (condition u) (condition u').
Proof.
  intros Hu. unfold forward_step.
  destruct (agents m !! self) as [t|] eqn:Hself.
  2:{ rewrite maybe_spread_infection_idle by congruence. eauto 10. }
  destruct (decide (condition t = Infected)) as [Hc|Hc].
  2:{ rewrite maybe_spread_infection_idle by congruence. eauto 10. }
  rewrite (maybe_spread_infection_lookup m self t j Hself Hc).
  case_decide as Hj.
  - subst j. assert (u = t) as -> by congruence.
    eexists. split; [done|]. simpl. rewrite Hc. auto 10.
  - rewrite Hu. simpl. case_decide; [|eauto 10].
    eexists. split; [done|]. unfold catch.
    case_decide; simpl; auto 10.
Qed.

Lemma forward_step_rank c c' : forward_step c c' → (rank c ≤ rank c')%nat.
Proof. intros [->|[[-> ->]|[-> ->]]]; simpl; lia. Qed.

Lemma visit_later order m j u :
  agents m !! j = Some u →
  ∃ u', agents (visit order m) !! j = Some u' ∧ later u u'.
Proof.
  revert m u. induction order as [|i order IH]; intros m u Hu; simpl.
  { eauto using later_refl. }
  destruct (maybe_spread_infection_forward m i j u Hu) as (u1 & Hu1 & ? & ? & Hf).
  destruct (IH _ _ Hu1) as (u' & Hu' & Hl). exists u'. split; [done|].
  eapply later_trans; [|done]. repeat split; auto using forward_step_rank.
Qed.

(** ** Counting *)

Lemma count_type_filter m c :
  count_type m c = length (filter (λ t, condition t = c) (agents m)).
Proof.
  unfold count_type.
  enough (∀ ts n, foldl (λ count tree,
                     if decide (condition tree = c) then S count else count) n ts
                  = (n + length (filter (λ t, condition t = c) ts))%nat) as H
    by apply (H _ 0%nat).
  induction ts as [|t ts IH]; intros n; simpl; [lia|].
  rewrite IH, filter_cons. case_decide; simpl; lia.
Qed.

Lemma count_type_sum m :
  (count_type m Healthy + count_type m Infected + count_type m Dead)%nat
  = length (agents m).
Proof.
  rewrite !count_type_filter.
  induction (agents m) as [|t ts IH]; [done|].
  rewrite !filter_cons. destruct t as [i p []]; simpl;
    repeat case_decide; try done; simpl in *; lia.
Qed.

Lemma count_type_agents m m' c :
  agents m' = agents m → count_type m' c = count_type m c.
Proof. unfold count_type. by intros ->. Qed.

Lemma count_type_0 m c :
  count_type m c = 0%nat ↔ ∀ j t, agents m !! j = Some t → condition t ≠ c.
Proof.
  rewrite count_type_filter. split.
  - intros H j t Hj Hc. apply length_zero_iff_nil in H.
    apply (filter_nil_not_elem_of _ _ t H Hc).
    by eapply list_elem_of_lookup_2.
  - intros H. apply length_zero_iff_nil.
    destruct (filter _ _) as [|t ts] eqn:Hf; [done|].
    assert (t ∈ filter (λ t, condition t = c) (agents m)) as Ht
      by (rewrite Hf; apply elem_of_cons; by left).
    apply list_elem_of_filter in Ht as [Hc Ht].
    apply list_elem_of_lookup in Ht as [j Hj]. by destruct (H j t).
Qed.

(** ** One step of the model *)

Lemma steps_S k m : steps (S k) m = Forest_step (steps k m).
Proof. revert m. induction k as [|k IH]; intros m; [done|]. simpl. by rewrite <-IH. Qed.

Lemma schedule_step_unfold m :
  schedule_step m =
  visit (step_order m)
    (set_random (shuffle R (random m) (seq 0 (length (agents m)))).2 m).
Proof.
  unfold schedule_step, step_order.
  by destruct (shuffle R (random m) (seq 0 (length (agents m)))).
Qed.

Lemma step_order_perm m : step_order m ≡ₚ seq 0 (length (agents m)).
Proof. apply shuffle_perm. Qed.

Lemma schedule_step_agents m :
  agents (schedule_step m) = agents (visit (step_order m) m).
Proof.
  rewrite schedule_step_unfold.
  generalize (shuffle R (random m) (seq 0 (length (agents m)))).2.
  generalize (step_order m). intros order r. revert m.
  induction order as [|i order IH] using rev_ind; intros m; [done|].
  rewrite !visit_app. simpl. unfold Ash_Tree_step, maybe_spread_infection.
  destruct (visit_frame order (set_random r m)) as (Hw & Hh & Hg & _).
  destruct (visit_frame order m) as (Hw' & Hh' & Hg' & _).
  rewrite IH, Hw, Hh, Hg, Hw', Hh', Hg'. simpl.
  destruct (agents (visit order m) !! i) as [t|]; [|done].
  by case_decide.
Qed.

Lemma schedule_step_frame m :
  let m' := schedule_step m in
  width m' = width m ∧ height m' = height m ∧ grid m' = grid m ∧
  running m' = running m ∧ datacollector m' = datacollector m ∧
  tree_density m' = tree_density m.
Proof.
  simpl. rewrite schedule_step_unfold.
  destruct (visit_frame (step_order m)
    (set_random (shuffle R (random m) (seq 0 (length (agents m)))).2 m))
    as (->&->&->&->&_&->&->). done.
Qed.

Lemma Forest_step_agents m :
  agents (Forest_step m) = agents (visit (step_order m) m).
Proof.
  unfold Forest_step. rewrite <-schedule_step_agents. by case_decide.
Qed.

Lemma Forest_step_rows m :
  datacollector (Forest_step m) = datacollector m ++ [row_of (Forest_step m)].
Proof.
  destruct (schedule_step_frame m) as (_&_&_&_&Hd&_).
  unfold row_of. rewrite !(count_type_agents (schedule_step m) (Forest_step m))
    by (by rewrite Forest_step_agents, schedule_step_agents).
  unfold Forest_step. case_decide; simpl; by rewrite Hd.
Qed.

Lemma Forest_step_running m :
  running (Forest_step m) =
  if decide (count_type (Forest_step m) Infected = 0%nat) then false
  else running m.
Proof.
  destruct (schedule_step_frame m) as (_&_&_&Hr&_).
  rewrite (count_type_agents (schedule_step m) (Forest_step m))
    by (by rewrite Forest_step_agents, schedule_step_agents).
  unfold Forest_step.
  rewrite (count_type_agents (schedule_step m) (collect (schedule_step m))) by done.
  case_decide; simpl; done.
Qed.

Lemma Forest_step_frame m :
  width (Forest_step m) = width m ∧ height (Forest_step m) = height m ∧
  grid (Forest_step m) = grid m ∧ tree_density (Forest_step m) = tree_density m.
Proof.
  destruct (schedule_step_frame m) as (Hw&Hh&Hg&_&_&Hd).
  unfold Forest_step. case_decide; simpl; by rewrite Hw, Hh, Hg, Hd.
Qed.

Lemma Forest_step_length m :
  length (agents (Forest_step m)) = length (agents m).
Proof. rewrite Forest_step_agents. apply visit_length. Qed.

Lemma Forest_step_later m j u :
  agents m !! j = Some u →
  ∃ u', agents (Forest_step m) !! j = Some u' ∧ later u u'.
Proof. rewrite Forest_step_agents. apply visit_later. Qed.

Lemma wf_forest_step m : wf_forest m → wf_forest (Forest_step m).
Proof.
  destruct (Forest_step_frame m) as (?&?&?&_).
  apply wf_forest_sites; try done.
  rewrite Forest_step_agents. apply visit_sites.
Qed.

Lemma steps_length k m : length (agents (steps k m)) = length (agents m).
Proof.
  revert m. induction k as [|k IH]; intros m; [done|].
  simpl. by rewrite IH, Forest_step_length.
Qed.

Lemma steps_later k m j u :
  agents m !! j = Some u →
  ∃ u', agents (steps k m) !! j = Some u' ∧ later u u'.
Proof.
  revert m u. induction k as [|k IH]; intros m u Hu; simpl.
  { eauto using later_refl. }
  destruct (Forest_step_later m j u Hu) as (u1 & Hu1 & Hl1).
  destruct (IH _ _ Hu1) as (u' & Hu' & Hl). eauto using later_trans.
Qed.

Lemma steps_rows_length k m :
  length (datacollector (steps k m)) = (length (datacollector m) + k)%nat.
Proof.
  revert m. induction k as [|k IH]; intros m; simpl; [lia|].
  rewrite IH, Forest_step_rows, length_app. simpl. lia.
Qed.

(** Without an infected tree a whole pass over the trees changes nothing. *)
Lemma visit_idle order m :
  count_type m Infected = 0%nat → visit order m = m.
Proof.
  intros H. induction order as [|i order IH] using rev_ind; [done|].
  rewrite visit_app, IH. simpl. apply maybe_spread_infection_idle.
  intros t Ht. by eapply count_type_0.
Qed.

(** ** The driver loop *)

Lemma run_loop_finished n m : running m = false → run_loop n m = m.
Proof. intros H. destruct n; simpl; [done|]. by rewrite H. Qed.

Lemma run_loop_steps n m :
  running m = true →
  ∃ k, (k ≤ n)%nat ∧ run_loop n m = steps k m ∧
       (∀ j, (j < k)%nat → running (steps j m) = true) ∧
       (k < n → running (steps k m) = false)%nat.
Proof.
  revert m. induction n as [|n IH]; intros m Hrun.
  { exists 0%nat. repeat split; [done|lia|lia]. }
  simpl. rewrite Hrun.
  destruct (running (Forest_step m)) eqn:Hr.
  - destruct (IH _ Hr) as (k & Hk & Heq & Hbefore & Hend).
    exists (S k). repeat split; [lia|done| |].
    + intros [|j] Hj; [done|]. simpl. apply Hbefore. lia.
    + intros Hlt. simpl. apply Hend. lia.
  - exists 1%nat. repeat split; [lia| | |done].
    + by rewrite run_loop_finished.
    + intros j Hj. by assert (j = 0%nat) as -> by lia.
Qed.

(** A tree that is not visited does not die. *)
Lemma visit_others_alive order m j u :
  j ∉ order → agents m !! j = Some u → condition u ≠ Dead →
  ∃ u', agents (visit order m) !! j = Some u' ∧ condition u' ≠ Dead.
Proof.
  revert m u. induction order as [|i order IH]; intros m u Hj Hu Hc; simpl.
  { eauto. }
  apply not_elem_of_cons in Hj as [Hne Hj].
  enough (∃ u1, agents (maybe_spread_infection i m) !! j = Some u1 ∧
                condition u1 ≠ Dead) as (u1 & Hu1 & Hc1) by eauto.
  destruct (agents m !! i) as [t|] eqn:Hi.
  2:{ rewrite maybe_spread_infection_idle by congruence. eauto. }
  destruct (decide (condition t = Infected)) as [Ht|Ht].
  2:{ rewrite maybe_spread_infection_idle by congruence. eauto. }
  rewrite (maybe_spread_infection_lookup m i t j Hi Ht).
  rewrite decide_False, Hu by done. simpl.
  case_decide; [|eauto]. eexists. split; [done|].
  unfold catch. by case_decide.
Qed.

Lemma step_order_NoDup m : NoDup (step_order m).
Proof. rewrite step_order_perm. apply NoDup_seq. Qed.

(** ** When initialisation fails *)

Lemma for_each_app {A S} (body : S → A → result S) (s : S) (l1 l2 : list A) :
  for_each body s (l1 ++ l2) = (s' ←! for_each body s l1; for_each body s' l2).
Proof.
  revert s. induction l1 as [|a l1 IH]; intros s; simpl; [done|].
  destruct (body s a); simpl; [apply IH|done].
Qed.

(** More trees than cells: the loop runs out of positions. *)
Lemma create_trees_IndexError ps m0 n :
  NoDup ps → Forall (in_bounds (width m0) (height m0)) ps →
  created ps m0 0 m0 → (length ps < n)%nat →
  for_each (add_tree ps) m0 (seq 0 n) = Err IndexError.
Proof.
  intros Hnd Hb Hm0 Hlen.
  replace n with (length ps + S (n - S (length ps)))%nat by lia.
  rewrite seq_app, for_each_app.
  destruct (create_trees_ok ps m0 Hnd Hb (length ps) 0%nat m0)
    as (m & -> & _); [lia|done|].
  simpl. unfold add_tree. by rewrite lookup_ge_None_2.
Qed.

Lemma Forest_init_IndexError seed (w h : Z) d n :
  num_of_agents w h d = Ok n →
  (Z.to_nat w * Z.to_nat h < Z.to_nat n)%nat →
  Forest_init R seed w h d = Err IndexError.
Proof.
  intros Hn Hmore. rewrite Forest_init_unfold.
  pose proof (shuffle_perm R _ seed (all_cells w h)) as Hperm.
  destruct (shuffle R seed (all_cells w h)) as [ps r]. simpl in *.
  rewrite Hn. simpl.
  apply create_trees_IndexError.
  - rewrite Hperm. apply NoDup_all_cells.
  - apply Forall_forall. intros p Hp. apply (elem_of_all_cells w h).
    by rewrite <-Hperm.
  - split; try done. intros p i. simpl. rewrite lookup_empty.
    split; [done|lia].
  - rewrite Hperm, length_all_cells. lia.
Qed.

Lemma Forest_init_Err seed (w h : Z) d e :
  num_of_agents w h d = Err e → Forest_init R seed w h d = Err e.
Proof.
  intros Hn. rewrite Forest_init_unfold.
  destruct (shuffle R seed (all_cells w h)) as [ps r]. by rewrite Hn.
Qed.

Lemma imap_new_tree_pos ps : pos <$> imap new_tree ps = ps.
Proof.
  apply list_eq. intros i.
  rewrite list_lookup_fmap, list_lookup_imap.
  by destruct (ps !! i).
Qed.

(** Everything a successful [Forest.__init__] tells. *)
Lemma Forest_init_inv seed (w h : Z) d m :
  Forest_init R seed w h d = Ok m →
  ∃ n, num_of_agents w h d = Ok n ∧
       (Z.to_nat n ≤ Z.to_nat w * Z.to_nat h)%nat ∧
       length (agents m) = Z.to_nat n ∧
       agents m = imap new_tree
                    (take (Z.to_nat n) (shuffle R seed (all_cells w h)).1) ∧
       wf_forest m ∧ running m = true ∧ datacollector m = [].
Proof.
  intros Hinit.
  destruct (Forest_init_agents seed w h d m Hinit) as (n & Hn & Hfit).
  destruct (Forest_init_ok seed w h d n Hn Hfit)
    as (m' & Hm & Hag & Hwf & _ & _ & _ & Hrun & Hrows & _).
  assert (m' = m) as -> by congruence.
  exists n. split; [done|]. split; [done|]. split; [|done].
  rewrite Hag, length_imap, length_take_le; [done|].
  rewrite shuffle_perm, length_all_cells. lia.
Qed.

(** The creation loop keeps the generator state. *)
Lemma create_trees_ok_or_not ps m l :
  (∃ m', for_each (add_tree ps) m l = Ok m' ∧ random m' = random m) ∨
  (∃ e, for_each (add_tree ps) m l = Err e).
Proof.
  revert m. induction l as [|i l IH]; intros m; simpl; [eauto|].
  destruct (add_tree ps m i) as [m1|e] eqn:Hadd; simpl; [|eauto].
  assert (random m1 = random m) as <-.
  { unfold add_tree in Hadd. destruct (ps !! i) as [[x y]|]; [|done].
    destruct (place_agent _ _ _ _ _); [|done]. simpl in Hadd.
    by injection Hadd as <-. }
  apply IH.
Qed.

(** Grid and scheduler agree in every state a run goes through. *)
Lemma wf_forest_reachable seed (w h : Z) d m0 k order :
  Forest_init R seed w h d = Ok m0 → wf_forest (visit order (steps k m0)).
Proof.
  intros Hinit. apply wf_forest_visit.
  destruct (Forest_init_inv seed w h d m0 Hinit) as (_ & _ & _ & _ & _ & Hwf & _).
  clear Hinit. revert m0 Hwf. induction k as [|k IH]; intros m0 Hwf; [done|].
  simpl. by apply IH, wf_forest_step.
Qed.

(** ** Further lemmas *)

(** A tree that is not Healthy changes only by its own visit. *)
Lemma visit_others_same order m j u :
  j ∉ order → agents m !! j = Some u → condition u ≠ Healthy →
  agents (visit order m) !! j = Some u.
Proof.
  revert m. induction order as [|i order IH]; intros m Hj Hu Hc; [done|].
  apply not_elem_of_cons in Hj as [Hne Hj]. simpl. apply IH; [done| |done].
  unfold Ash_Tree_step.
  destruct (agents m !! i) as [t|] eqn:Hi.
  2:{ rewrite maybe_spread_infection_idle by congruence. done. }
  destruct (decide (condition t = Infected)) as [Ht|Ht].
  2:{ rewrite maybe_spread_infection_idle by congruence. done. }
  rewrite (maybe_spread_infection_lookup m i t j Hi Ht).
  rewrite decide_False, Hu by done. simpl.
  case_decide; [|done]. unfold catch. by rewrite decide_False.
Qed.

(** Every tree takes its turn in a step. *)
Lemma step_order_split m j :
  (j < length (agents m))%nat →
  ∃ order1 order2, step_order m = order1 ++ j :: order2 ∧
                   (j ∉ order1) ∧ (j ∉ order2).
Proof.
  intros Hj.
  assert (j ∈ step_order m) as Hin.
  { rewrite step_order_perm. apply elem_of_seq. lia. }
  apply list_elem_of_split in Hin as (order1 & order2 & Heq).
  exists order1, order2. split; [done|].
  pose proof (step_order_NoDup m) as Hnd. rewrite Heq in Hnd.
  apply NoDup_app in Hnd as (_ & Hdisj & Hnd).
  apply NoDup_cons in Hnd as [Hnot _]. split; [|done].
  intros Hin. apply (Hdisj j Hin). apply elem_of_cons. by left.
Qed.

Lemma Forest_step_infected m j u :
  agents m !! j = Some u → condition u = Infected →
  agents (Forest_step m) !! j = Some (set_condition Dead u).
Proof.
  intros Hu Hc.
  destruct (step_order_split m j) as (order1 & order2 & Horder & H1 & H2).
  { by eapply lookup_lt_Some. }
  rewrite Forest_step_agents, Horder, visit_app. simpl. unfold Ash_Tree_step.
  assert (agents (visit order1 m) !! j = Some u) as Hvisit.
  { apply visit_others_same; [done..|]. by rewrite Hc. }
  apply visit_others_same; [done| |done].
  rewrite (maybe_spread_infection_lookup _ j u j Hvisit Hc).
  by rewrite decide_True.
Qed.

(** Counting along a pointwise relation. *)
Lemma filter_length_mono {A} (P Q : A → Prop)
    `{!∀ x, Decision (P x)} `{!∀ x, Decision (Q x)}
    (Rel : A → A → Prop) (l l' : list A) :
  Forall2 Rel l l' → (∀ x y, Rel x y → P x → Q y) →
  (length (filter P l) ≤ length (filter Q l'))%nat.
Proof.
  intros Hl HPQ. induction Hl as [|x y l l' Hxy _ IH]; [done|].
  rewrite !filter_cons. destruct (decide (P x)) as [HP|HP].
  - rewrite decide_True by eauto. simpl. lia.
  - case_decide; simpl; lia.
Qed.

Lemma Forest_step_rel m : Forall2 step_rel (agents m) (agents (Forest_step m)).
Proof.
  apply Forall2_same_length_lookup_2; [by rewrite Forest_step_length|].
  intros j u u' Hu Hu'.
  destruct (Forest_step_later m j u Hu) as (u1 & Hu1 & Hl).
  assert (u1 = u') as -> by congruence. split; [done|].
  intros Hc. rewrite (Forest_step_infected m j u Hu Hc) in Hu'.
  by injection Hu' as <-.
Qed.

Lemma Forest_step_counts m :
  (count_type (Forest_step m) Healthy ≤ count_type m Healthy)%nat ∧
  (count_type m Dead + count_type m Infected
     ≤ count_type (Forest_step m) Dead)%nat.
Proof.
  pose proof (Forest_step_rel m) as Hrel. split.
  - rewrite !count_type_filter.
    apply (filter_length_mono _ _ (flip step_rel)); [by apply Forall2_flip|].
    intros y x [(_ & _ & Hrank) _] Hy. simpl in *. rewrite Hy in Hrank.
    destruct (condition x); simpl in *; done || lia.
  - pose proof (count_type_sum m) as Hsum.
    assert (count_type m Dead + count_type m Infected
            = length (filter (λ t, condition t ≠ Healthy) (agents m)))%nat as ->.
    { rewrite !count_type_filter. clear.
      induction (agents m) as [|t ts IH]; [done|].
      rewrite !filter_cons. destruct t as [i p []]; simpl;
        repeat case_decide; try done; simpl in *; lia. }
    rewrite count_type_filter.
    apply (filter_length_mono _ _ step_rel); [done|].
    intros x y [(_ & _ & Hrank) Hinf] Hx.
    destruct (condition x) eqn:Ex; [done|by apply Hinf|].
    simpl in Hrank. destruct (condition y); simpl in *; done || lia.
Qed.

(** ** The history *)

(** Row [i] of the history is the census after step [i + 1]. *)
Lemma steps_rows k m :
  datacollector (steps k m)
  = datacollector m ++ ((λ i, row_of (steps (S i) m)) <$> seq 0 k).
Proof.
  induction k as [|k IH]; [by rewrite app_nil_r|].
  rewrite steps_S, Forest_step_rows, IH, seq_S, fmap_app, <-app_assoc.
  by rewrite <-steps_S.
Qed.

Lemma steps_running_before k m :
  running (steps (S k) m) = true → running (steps k m) = true.
Proof.
  rewrite steps_S, Forest_step_running. by case_decide.
Qed.

Lemma steps_running_infected k m :
  running (steps (S k) m) = true →
  count_type (steps (S k) m) Infected ≠ 0%nat.
Proof.
  rewrite steps_S, Forest_step_running. by case_decide.
Qed.

Lemma steps_finished_infected k m :
  running (steps k m) = true → running (steps (S k) m) = false →
  count_type (steps (S k) m) Infected = 0%nat.
Proof.
  rewrite steps_S, Forest_step_running. case_decide; [done|congruence].
Qed.

(** A step that starts without an Infected tree ends the run. *)
Lemma Forest_step_idle_finished m :
  count_type m Infected = 0%nat → running (Forest_step m) = false.
Proof.
  intros H0. rewrite Forest_step_running, decide_True; [done|].
  rewrite (count_type_agents m (Forest_step m)); [done|].
  by rewrite Forest_step_agents, visit_idle.
Qed.

(** While the run goes on, every step kills at least one tree. *)
Lemma steps_running_dead k m :
  running (steps (S k) m) = true →
  (S k ≤ count_type (steps (S k) m) Dead)%nat.
Proof.
  induction k as [|k IH]; intros Hrun.
  - destruct (decide (count_type m Infected = 0%nat)) as [H0|Hpos].
    { simpl in Hrun. by rewrite Forest_step_idle_finished in Hrun. }
    simpl. destruct (Forest_step_counts m) as [_ Hdead]. lia.
  - pose proof (steps_running_before _ _ Hrun) as Hbefore.
    specialize (IH Hbefore).
    pose proof (steps_running_infected _ _ Hbefore) as Hinf.
    rewrite (steps_S (S k)).
    destruct (Forest_step_counts (steps (S k) m)) as [_ Hdead]. lia.
Qed.

(** So the run cannot go on for as many steps as there are trees. *)
Lemma steps_running_bound k m :
  running (steps (S k) m) = true → (S k < length (agents m))%nat.
Proof.
  intros Hrun.
  pose proof (steps_running_dead k m Hrun) as Hdead.
  pose proof (steps_running_infected k m Hrun) as Hinf.
  pose proof (count_type_sum (steps (S k) m)) as Hsum.
  rewrite steps_length in Hsum. lia.
Qed.

(** ** Neighbouring trees *)

Lemma moore_adjacent_sym p q : moore_adjacent p q → moore_adjacent q p.
Proof. intros (Hne & Hx & Hy). repeat split; [congruence|lia..]. Qed.

Lemma adjacent_trees_sites m m' i j :
  pos <$> agents m' = pos <$> agents m →
  adjacent_trees m' i j ↔ adjacent_trees m i j.
Proof. unfold adjacent_trees. by intros ->. Qed.

Lemma adjacent_trees_lookup m i j t u :
  agents m !! i = Some t → agents m !! j = Some u →
  adjacent_trees m i j ↔ moore_adjacent (pos t) (pos u).
Proof.
  intros Ht Hu. unfold adjacent_trees. rewrite !list_lookup_fmap, Ht, Hu.
  simpl. split; [by intros (p & q & [= <-] & [= <-] & ?)|eauto].
Qed.

(** The trees a visit of the Infected tree [self] reaches. *)
Lemma wf_neighbors_adjacent m t self j :
  wf_forest m → agents m !! self = Some t →
  j ∈ get_neighbors (width m) (height m) (grid m) (pos t) ↔
  adjacent_trees m j self.
Proof.
  intros Hwf Hself. rewrite (wf_neighbors m t self j Hwf Hself).
  unfold adjacent_trees. rewrite !list_lookup_fmap, Hself. simpl. split.
  - intros (u & Hu & Hadj). exists (pos u), (pos t). by rewrite Hu.
  - intros (p & q & Hp & [= <-] & Hadj).
    destruct (agents m !! j) as [u|]; [|done].
    simpl in Hp. injection Hp as <-. eauto.
Qed.

(** *** Infection does not cross a gap *)

Lemma maybe_spread_infection_gap (P : nat → Prop) m self i :
  wf_forest m →
  (∀ i j, P i → adjacent_trees m i j → P j) →
  (∀ i t, P i → agents m !! i = Some t → condition t ≠ Infected) →
  P i → agents (maybe_spread_infection self m) !! i = agents m !! i.
Proof.
  intros Hwf Hclosed Hclean Hi.
  destruct (agents m !! self) as [t|] eqn:Hself.
  2:{ rewrite maybe_spread_infection_idle by congruence. done. }
  destruct (decide (condition t = Infected)) as [Ht|Ht].
  2:{ rewrite maybe_spread_infection_idle by congruence. done. }
  assert (¬ P self) as Hself_out by (intros HP; by apply (Hclean self t)).
  rewrite (maybe_spread_infection_lookup m self t i Hself Ht).
  rewrite decide_False by (intros ->; done).
  case_decide as Hin; [|by destruct (agents m !! i)].
  destruct Hself_out. apply (Hclosed i); [done|].
  by apply (wf_neighbors_adjacent m t).
Qed.

Lemma visit_gap (P : nat → Prop) order m :
  wf_forest m →
  (∀ i j, P i → adjacent_trees m i j → P j) →
  (∀ i t, P i → agents m !! i = Some t → condition t ≠ Infected) →
  ∀ i, P i → agents (visit order m) !! i = agents m !! i.
Proof.
  intros Hwf Hclosed Hclean.
  induction order as [|self order IH] using rev_ind; [done|].
  intros i Hi. rewrite visit_app. simpl. unfold Ash_Tree_step.
  rewrite <-(IH i Hi). apply (maybe_spread_infection_gap P); [| | |done].
  - by apply wf_forest_visit.
  - intros i' j' Hi' Hadj. apply (Hclosed i'); [done|].
    by apply (adjacent_trees_sites m (visit order m)); [apply visit_sites|].
  - intros i' t Hi' Ht. apply (Hclean i' t Hi'). by rewrite <-IH.
Qed.

Lemma Forest_step_sites m :
  pos <$> agents (Forest_step m) = pos <$> agents m.
Proof. rewrite Forest_step_agents. apply visit_sites. Qed.

Lemma steps_sites k m : pos <$> agents (steps k m) = pos <$> agents m.
Proof.
  revert m. induction k as [|k IH]; intros m; [done|].
  simpl. by rewrite IH, Forest_step_sites.
Qed.

Lemma wf_forest_steps k m : wf_forest m → wf_forest (steps k m).
Proof.
  revert m. induction k as [|k IH]; intros m Hwf; [done|].
  simpl. by apply IH, wf_forest_step.
Qed.

Lemma steps_gap (P : nat → Prop) k m :
  wf_forest m →
  (∀ i j, P i → adjacent_trees m i j → P j) →
  (∀ i t, P i → agents m !! i = Some t → condition t ≠ Infected) →
  ∀ i, P i → agents (steps k m) !! i = agents m !! i.
Proof.
  intros Hwf Hclosed Hclean.
  induction k as [|k IH]; [done|].
  intros i Hi. rewrite steps_S, Forest_step_agents, <-(IH i Hi).
  apply (visit_gap P); [| | |done].
  - by apply wf_forest_steps.
  - intros i' j' Hi' Hadj. apply (Hclosed i'); [done|].
    by apply (adjacent_trees_sites m (steps k m)); [apply steps_sites|].
  - intros i' t Hi' Ht. apply (Hclean i' t Hi'). by rewrite <-IH.
Qed.

(** *** The edge of the dead area *)

(** What the visit of another tree can have done to a tree. *)
Lemma touched_inv (P : Prop) `{!Decision P} (t0 ti : Ash_Tree) :
  (if decide P then catch else id) <$> Some t0 = Some ti →
  pos ti = pos t0 ∧
  (condition ti = Dead → condition t0 = Dead) ∧
  (condition ti = Healthy → ti = t0 ∧ ¬ P).
Proof.
  unfold catch.
  destruct (decide P), t0 as [? ? []]; simpl; intros [= <-]; simpl;
    repeat split; done.
Qed.

Lemma maybe_spread_infection_fenced m self :
  wf_forest m → fenced m → fenced (maybe_spread_infection self m).
Proof.
  intros Hwf Hfenced.
  destruct (agents m !! self) as [t|] eqn:Hself.
  2:{ rewrite maybe_spread_infection_idle by congruence. done. }
  destruct (decide (condition t = Infected)) as [Ht|Ht].
  2:{ rewrite maybe_spread_infection_idle by congruence. done. }
  pose proof (maybe_spread_infection_lookup m self t) as Hlk.
  specialize (λ j, Hlk j Hself Ht).
  intros i j ti uj. rewrite !Hlk. intros Hi Hj Hadj Hdead Hhealthy.
  (* the Healthy tree [j] is not the visited one and was Healthy before *)
  destruct (decide (j = self)) as [->|Hjs].
  { injection Hj as <-. done. }
  destruct (agents m !! j) as [u|] eqn:Hu; [|done].
  assert (uj = u ∧ condition u = Healthy ∧
          j ∉ get_neighbors (width m) (height m) (grid m) (pos t))
    as (-> & Hu_h & Hnot).
  { apply touched_inv in Hj as (_ & _ & Hj). destruct (Hj Hhealthy) as [-> ?].
    auto. }
  destruct (decide (i = self)) as [->|His].
  - (* the visited tree has infected all its Healthy neighbours *)
    injection Hi as <-. simpl in Hadj. destruct Hnot.
    apply (wf_neighbors m t self j Hwf Hself). exists u.
    split; [done|]. by apply moore_adjacent_sym.
  - (* any other Dead tree was Dead before *)
    destruct (agents m !! i) as [t0|] eqn:Ht0; [|done].
    assert (pos ti = pos t0 ∧ condition t0 = Dead) as [Hpos Ht0d].
    { apply touched_inv in Hi as (? & ? & _). auto. }
    rewrite Hpos in Hadj. by apply (Hfenced i j t0 u).
Qed.

Lemma visit_fenced order m : wf_forest m → fenced m → fenced (visit order m).
Proof.
  intros Hwf Hf. induction order as [|self order IH] using rev_ind; [done|].
  rewrite visit_app. simpl.
  apply maybe_spread_infection_fenced; [by apply wf_forest_visit|done].
Qed.

Lemma Forest_step_fenced m : wf_forest m → fenced m → fenced (Forest_step m).
Proof.
  intros Hwf Hf i j t u. rewrite !Forest_step_agents.
  by apply visit_fenced.
Qed.

Lemma steps_fenced k m : wf_forest m → fenced m → fenced (steps k m).
Proof.
  revert m. induction k as [|k IH]; intros m Hwf Hf; [done|].
  simpl. apply IH; [by apply wf_forest_step|by apply Forest_step_fenced].
Qed.

(** A new forest has no Dead tree. *)
Lemma Forest_init_alive seed (w h : Z) d m t :
  Forest_init R seed w h d = Ok m → t ∈ agents m → condition t ≠ Dead.
Proof.
  intros Hinit Ht.
  destruct (Forest_init_inv seed w h d m Hinit) as (n & _ & _ & _ & Hag & _).
  rewrite Hag in Ht. apply elem_of_lookup_imap in Ht as (i & p & -> & _).
  unfold new_tree. simpl. by case_decide.
Qed.

Lemma Forest_init_fenced seed (w h : Z) d m :
  Forest_init R seed w h d = Ok m → fenced m.
Proof.
  intros Hinit i j t u Ht _ _ Hdead.
  destruct (Forest_init_alive seed w h d m t Hinit); [|done].
  by eapply list_elem_of_lookup_2.
Qed.

(** *** When the infection has died out *)

Lemma finished_connected_dead m0 m i j t :
  (∀ i t, agents m0 !! i = Some t →
          ∃ t', agents m !! i = Some t' ∧ later t t') →
  fenced m → count_type m Infected = 0%nat →
  agents m0 !! i = Some t → condition t ≠ Healthy →
  rtc (adjacent_trees m0) i j →
  ∃ u, agents m !! j = Some u ∧ condition u = Dead.
Proof.
  intros Hlater Hfenced H0 Ht Hc Hpath.
  assert (∀ j u, agents m !! j = Some u → condition u ≠ Healthy →
                 condition u = Dead) as Hdead.
  { intros j' u Hu Hu_c. pose proof (proj1 (count_type_0 m Infected) H0 j' u Hu).
    by destruct (condition u). }
  revert j Hpath.
  apply (rtc_ind_r (λ j, ∃ u, agents m !! j = Some u ∧ condition u = Dead)).
  - destruct (Hlater i t Ht) as (t' & Ht' & _ & _ & Hrank).
    exists t'. split; [done|]. apply (Hdead i); [done|].
    intros Hh. rewrite Hh in Hrank. destruct (condition t); simpl in *; done || lia.
  - intros y j Hpath (p & q & Hp & Hq & Hadj) (uy & Huy & Hy_dead).
    rewrite list_lookup_fmap in Hp, Hq.
    destruct (agents m0 !! y) as [ty|] eqn:Hty; [|done].
    destruct (agents m0 !! j) as [tj|] eqn:Htj; [|done].
    simpl in Hp, Hq. injection Hp as <-. injection Hq as <-.
    destruct (Hlater y ty Hty) as (uy' & Huy' & _ & Hpos_y & _).
    destruct (Hlater j tj Htj) as (uj & Huj & _ & Hpos_j & _).
    assert (uy' = uy) as -> by congruence.
    exists uj. split; [done|]. apply (Hdead j); [done|].
    apply (Hfenced y j uy uj); [done..| |done]. by rewrite Hpos_y, Hpos_j.
Qed.

(** ** More about initialisation *)

Lemma filter_fmap_length {A B} (f : A → B) (P : A → Prop) (Q : B → Prop)
    `{!∀ x, Decision (P x)} `{!∀ y, Decision (Q y)} (l : list A) :
  (∀ x, x ∈ l → P x ↔ Q (f x)) →
  length (filter P l) = length (filter Q (f <$> l)).
Proof.
  induction l as [|x l IH]; intros HPQ; [done|].
  rewrite fmap_cons, !filter_cons.
  assert (P x ↔ Q (f x)) as Hx by (apply HPQ, elem_of_cons; by left).
  assert (length (filter P l) = length (filter Q (f <$> l))) as Hl.
  { apply IH. intros y Hy. apply HPQ, elem_of_cons. by right. }
  destruct (decide (P x)) as [HP|HP].
  - rewrite decide_True by (by apply Hx). simpl. by rewrite Hl.
  - rewrite decide_False by (by rewrite <-Hx). done.
Qed.

Lemma Forest_init_sites seed (w h : Z) d m :
  Forest_init R seed w h d = Ok m →
  NoDup (pos <$> agents m) ∧
  (∀ p, p ∈ pos <$> agents m → in_bounds w h p) ∧
  (∀ i t, agents m !! i = Some t → t = new_tree i (pos t)).
Proof.
  intros Hinit.
  destruct (Forest_init_inv seed w h d m Hinit) as (n & _ & _ & _ & Hag & _).
  rewrite Hag, imap_new_tree_pos. split; [|split].
  - eapply sublist_NoDup; [|apply sublist_take].
    rewrite shuffle_perm. apply NoDup_all_cells.
  - intros p Hp. apply elem_of_all_cells. rewrite <-(shuffle_perm R _ seed).
    eapply elem_of_sublist; [exact Hp|apply sublist_take].
  - intros i t. rewrite list_lookup_imap.
    destruct (take _ _ !! i) as [p|]; [|done]. by intros [= <-].
Qed.

(** At most one Infected tree per cell of the first column. *)
Lemma Forest_init_infected_bound seed (w h : Z) d m :
  Forest_init R seed w h d = Ok m →
  (count_type m Infected ≤ Z.to_nat h)%nat.
Proof.
  intros Hinit.
  destruct (Forest_init_sites seed w h d m Hinit) as (Hnd & Hb & Hnew).
  rewrite count_type_filter.
  rewrite (filter_fmap_length pos (λ t, condition t = Infected)
             (λ p : Z * Z, p.1 = 0)).
  2:{ intros t Ht. apply list_elem_of_lookup in Ht as [i Hi].
      rewrite (Hnew i t Hi) at 1. unfold new_tree. simpl. by case_decide. }
  etrans; [|by rewrite <-(length_seqZ 0 h),
                       <-(length_fmap (λ y : Z, (0, y)) (seqZ 0 h))].
  apply submseteq_length, NoDup_submseteq; [by apply NoDup_filter|].
  intros p Hp. apply list_elem_of_filter in Hp as [Hx Hp].
  destruct (Hb p Hp) as [_ Hy]. apply list_elem_of_fmap.
  exists p.2. split; [destruct p; simpl in *; by subst|].
  apply elem_of_seqZ. lia.
Qed.

Lemma Forest_init_no_dead seed (w h : Z) d m :
  Forest_init R seed w h d = Ok m → count_type m Dead = 0%nat.
Proof.
  intros Hinit. apply count_type_0. intros j t Hj.
  apply (Forest_init_alive seed w h d m t Hinit).
  by eapply list_elem_of_lookup_2.
Qed.

(** With density [1.0] the product is exact. *)
Lemma num_of_agents_one (w h : Z) :
  0 < w * h < 2 ^ 53 → num_of_agents w h float_one = Ok (w * h).
Proof.
  intros Hn.
  destruct (num_of_agents_bounds w h float_one Hn) as (k & -> & [Hlo _] & _ & Hhi).
  { by repeat split. }
  f_equal. enough (floor_mul (w * h) float_one = w * h) by lia.
  unfold floor_mul, float_one. rewrite Z.shiftl_div_pow2 by lia.
  change (2 ^ (- -52)) with 4503599627370496.
  apply Z.div_mul. lia.
Qed.

Lemma Forest_init_full seed (w h : Z) :
  0 < w → 0 < h → w * h < 2 ^ 53 →
  ∃ m, Forest_init R seed w h float_one = Ok m ∧
       pos <$> agents m ≡ₚ all_cells w h.
Proof.
  intros Hw Hh Hcells.
  destruct (Forest_init_ok seed w h float_one (w * h))
    as (m & Hinit & Hag & _); [apply num_of_agents_one; nia|nia|].
  exists m. split; [done|].
  rewrite Hag, imap_new_tree_pos, take_ge; [apply shuffle_perm|].
  rewrite shuffle_perm, length_all_cells. nia.
Qed.

(** In a fully planted forest every tree is linked to the first column. *)
Lemma full_grid_connected m (w h : Z) :
  (∀ p, in_bounds w h p → p ∈ pos <$> agents m) →
  ∀ (n : nat) j q, (pos <$> agents m) !! j = Some q → in_bounds w h q →
    q.1 = Z.of_nat n →
    ∃ i, (pos <$> agents m) !! i = Some (0, q.2) ∧
         rtc (adjacent_trees m) i j.
Proof.
  intros Hfull. induction n as [|n IH]; intros j [x y] Hj Hq Hx; simpl in *.
  - subst x. exists j. split; [done|]. apply rtc_refl.
  - assert (in_bounds w h (x - 1, y)) as Hq'.
    { destruct Hq as [? ?]. split; simpl in *; lia. }
    destruct (proj1 (list_elem_of_lookup _ _) (Hfull _ Hq')) as [j' Hj'].
    destruct (IH j' (x - 1, y) Hj' Hq') as (i & Hi & Hpath); [simpl; lia|].
    exists i. split; [done|]. eapply rtc_r; [done|].
    exists (x - 1, y), (x, y). split; [done|]. split; [done|].
    split; [intros [= ?]; lia|]. simpl. lia.
Qed.

(** ** More about the driver *)

(** The loop stops by itself within as many steps as there are trees. *)
Lemma run_loop_bound n m :
  running m = true →
  ∃ k, (k ≤ n)%nat ∧ (k ≤ Nat.max 1 (length (agents m)))%nat ∧
       run_loop n m = steps k m ∧
       (∀ j, (j < k)%nat → running (steps j m) = true) ∧
       (Nat.max 1 (length (agents m)) ≤ n →
        1 ≤ k ∧ running (steps k m) = false ∧
        count_type (steps k m) Infected = 0)%nat.
Proof.
  intros Hrun.
  destruct (run_loop_steps n m Hrun) as (k & Hk & Heq & Hbefore & Hend).
  assert (k ≤ Nat.max 1 (length (agents m)))%nat as Hbound.
  { destruct k as [|[|k]]; [lia..|].
    pose proof (steps_running_bound k m (Hbefore (S k) ltac:(lia))). lia. }
  exists k. split; [done|]. split; [done|]. split; [done|]. split; [done|].
  intros Hn. destruct k as [|k].
  { pose proof (Hend ltac:(lia)) as Hf. simpl in Hf. congruence. }
  split; [lia|].
  destruct (running (steps (S k) m)) eqn:Hr.
  - pose proof (steps_running_bound k m Hr).
    pose proof (Hend ltac:(lia)) as Hf. congruence.
  - split; [done|]. apply steps_finished_infected; [|done]. apply Hbefore. lia.
Qed.

(** ** Frames of a run *)

Lemma steps_frame k m :
  width (steps k m) = width m ∧ height (steps k m) = height m ∧
  grid (steps k m) = grid m ∧ tree_density (steps k m) = tree_density m.
Proof.
  revert m. induction k as [|k IH]; intros m; [done|]. simpl.
  destruct (IH (Forest_step m)) as (-> & -> & -> & ->).
  apply Forest_step_frame.
Qed.

Lemma steps_ids k m :
  unique_id <$> agents (steps k m) = unique_id <$> agents m.
Proof.
  apply list_eq. intros j. rewrite !list_lookup_fmap.
  destruct (agents m !! j) as [u|] eqn:Hu.
  - destruct (steps_later k m j u Hu) as (u' & -> & Hid & _). simpl.
    by rewrite Hid.
  - rewrite lookup_ge_None_2; [done|].
    rewrite steps_length. by apply lookup_ge_None_1.
Qed.

Lemma Forest_init_ids seed (w h : Z) d m i t :
  Forest_init R seed w h d = Ok m → agents m !! i = Some t → unique_id t = i.
Proof.
  intros Hinit Ht.
  destruct (Forest_init_sites seed w h d m Hinit) as (_ & _ & Hnew).
  by rewrite (Hnew i t Ht).
Qed.

(** All trees Dead: the census. *)
Lemma count_type_all_dead m :
  (∀ j u, agents m !! j = Some u → condition u = Dead) →
  row_of m = {| n_healthy := 0; n_infected := 0;
                n_dead := length (agents m) |}.
Proof.
  intros Hall. unfold row_of.
  pose proof (count_type_sum m) as Hsum.
  assert (count_type m Healthy = 0%nat) as HH.
  { apply count_type_0. intros j u Hu. by rewrite (Hall j u Hu). }
  assert (count_type m Infected = 0%nat) as HI.
  { apply count_type_0. intros j u Hu. by rewrite (Hall j u Hu). }
  rewrite HH, HI in *. f_equal. lia.
Qed.

(** ** The life of an infection *)

(** A tree next to a tree that starts the step Infected is not Healthy at
    the end of the step. *)
Lemma Forest_step_neighbor m i j t u :
  wf_forest m → agents m !! i = Some t → condition t = Infected →
  agents m !! j = Some u → moore_adjacent (pos u) (pos t) →
  ∃ u', agents (Forest_step m) !! j = Some u' ∧ condition u' ≠ Healthy.
Proof.
  intros Hwf Ht Hc Hu Hadj.
  destruct (step_order_split m i) as (order1 & order2 & Horder & H1 & H2).
  { by eapply lookup_lt_Some. }
  rewrite Forest_step_agents, Horder, visit_app. simpl. unfold Ash_Tree_step.
  assert (agents (visit order1 m) !! i = Some t) as Hvisit.
  { apply visit_others_same; [done..|]. by rewrite Hc. }
  destruct (visit_later order1 m j u Hu) as (u1 & Hu1 & _ & Hpos & _).
  assert (j ≠ i) as Hne.
  { intros ->. destruct Hadj as [Hadj _]. apply Hadj. congruence. }
  assert (∃ u2, agents (maybe_spread_infection i (visit order1 m)) !! j
                = Some u2 ∧ condition u2 ≠ Healthy) as (u2 & Hu2 & Hc2).
  { rewrite (maybe_spread_infection_lookup _ i t j Hvisit Hc).
    rewrite decide_False by done. rewrite decide_True, Hu1.
    - simpl. eexists. split; [done|]. unfold catch. by case_decide.
    - apply (wf_neighbors _ t i); [by apply wf_forest_visit|done|].
      exists u1. split; [done|]. by rewrite Hpos. }
  destruct (visit_later order2 _ j u2 Hu2) as (u' & Hu' & _ & _ & Hrank).
  exists u'. split; [done|]. intros Hh. rewrite Hh in Hrank.
  destruct (condition u2); simpl in *; done || lia.
Qed.

(** Dead for good. *)
Lemma steps_dead k m j u :
  agents m !! j = Some u → condition u = Dead →
  agents (steps k m) !! j = Some u.
Proof.
  intros Hu Hc. destruct (steps_later k m j u Hu) as (u' & -> & Hl).
  f_equal. by apply later_Dead.
Qed.

Lemma steps_infected k m j u :
  agents m !! j = Some u → condition u = Infected →
  agents (steps (S k) m) !! j = Some (set_condition Dead u).
Proof.
  intros Hu Hc. simpl. apply steps_dead; [|done].
  by apply Forest_step_infected.
Qed.

(** ** The history of a run *)

(** What [run_model] returns: one census per executed step. *)
Lemma run_model_rows seed (w h : Z) d (max_steps : Z) m0 :
  Forest_init R seed w h d = Ok m0 →
  ∃ k, (k ≤ Z.to_nat max_steps)%nat ∧
       (k ≤ Nat.max 1 (length (agents m0)))%nat ∧
       run_model R seed w h d max_steps
         = Ok ((λ i, row_of (steps (S i) m0)) <$> seq 0 k) ∧
       (∀ j, (j < k)%nat → running (steps j m0) = true) ∧
       (Nat.max 1 (length (agents m0)) ≤ Z.to_nat max_steps →
        1 ≤ k ∧ count_type (steps k m0) Infected = 0)%nat.
Proof.
  intros Hinit.
  destruct (Forest_init_inv seed w h d m0 Hinit)
    as (n & _ & _ & _ & _ & _ & Hrun & Hrows).
  destruct (run_loop_bound (Z.to_nat max_steps) m0 Hrun)
    as (k & Hk & Hbound & Heq & Hbefore & Hend).
  exists k. split; [done|]. split; [done|]. split; [|split; [done|]].
  - unfold run_model. rewrite Hinit. simpl.
    by rewrite Heq, steps_rows, Hrows.
  - intros Hn. destruct (Hend Hn) as (? & _ & ?). done.
Qed.

(** ** Linked trees *)

Lemma adjacent_trees_sym m i j : adjacent_trees m i j → adjacent_trees m j i.
Proof.
  intros (p & q & Hp & Hq & Hadj). exists q, p.
  split; [done|]. split; [done|]. by apply moore_adjacent_sym.
Qed.

Lemma out_of_reach_closed m i j :
  out_of_reach m i → adjacent_trees m i j → out_of_reach m j.
Proof.
  intros Hout Hadj i0 t Ht Hc Hpath. apply (Hout i0 t Ht Hc).
  eapply rtc_r; [done|]. by apply adjacent_trees_sym.
Qed.

Lemma out_of_reach_clean m i t :
  out_of_reach m i → agents m !! i = Some t → condition t ≠ Infected.
Proof. intros Hout Ht Hc. by apply (Hout i t Ht Hc). Qed.

(** ** A fully planted forest *)

Lemma Forest_init_first_column seed (w h : Z) d m :
  Forest_init R seed w h d = Ok m → 0 < w →
  (∀ p, in_bounds w h p → p ∈ pos <$> agents m) →
  count_type m Infected = Z.to_nat h.
Proof.
  intros Hinit Hw Hfull.
  apply Nat.le_antisymm; [by eapply Forest_init_infected_bound|].
  destruct (Forest_init_sites seed w h d m Hinit) as (Hnd & Hb & Hnew).
  rewrite count_type_filter.
  rewrite (filter_fmap_length pos (λ t, condition t = Infected)
             (λ p : Z * Z, p.1 = 0)).
  2:{ intros t Ht. apply list_elem_of_lookup in Ht as [i Hi].
      rewrite (Hnew i t Hi) at 1. unfold new_tree. simpl. by case_decide. }
  etrans; [by rewrite <-(length_seqZ 0 h),
                      <-(length_fmap (λ y : Z, (0, y)) (seqZ 0 h))|].
  apply submseteq_length, NoDup_submseteq.
  - apply NoDup_fmap_2; [by intros ?? [= ?]|apply NoDup_seqZ].
  - intros p Hp. apply list_elem_of_fmap in Hp as (y & -> & Hy).
    apply elem_of_seqZ in Hy. apply list_elem_of_filter. split; [done|].
    apply Hfull. split; simpl; lia.
Qed.

Lemma census_lookup k m (i : nat) (r : counts) :
  ((λ i, row_of (steps (S i) m)) <$> seq 0 k) !! i = Some r →
  r = row_of (steps (S i) m) ∧ (i < k)%nat.
Proof.
  rewrite list_lookup_fmap. intros Hr.
  destruct (seq 0 k !! i) as [i1|] eqn:Hi; [|done].
  apply lookup_seq in Hi as [-> Hi]. injection Hr as <-. done.
Qed.

(** ** Counts and failures, once more *)

(** The counts, read off the scheduler's list. *)
Lemma count_type_none m c :
  count_type m c = 0%nat ↔ ∀ t, t ∈ agents m → condition t ≠ c.
Proof.
  rewrite count_type_0. split.
  - intros H t Ht. apply list_elem_of_lookup in Ht as [j Hj]. by apply (H j).
  - intros H j t Hj. apply H. by eapply list_elem_of_lookup_2.
Qed.

Lemma count_type_some m c :
  count_type m c ≠ 0%nat ↔ ∃ t, t ∈ agents m ∧ condition t = c.
Proof.
  rewrite count_type_filter. split.
  - intros Hne. destruct (filter _ (agents m)) as [|t ts] eqn:Hf; [done|].
    assert (t ∈ filter (λ t, condition t = c) (agents m)) as Hin.
    { rewrite Hf. apply elem_of_cons. by left. }
    apply list_elem_of_filter in Hin as [Hc Hin]. eauto.
  - intros (t & Ht & Hc) H0. apply length_zero_iff_nil in H0.
    assert (t ∈ filter (λ t, condition t = c) (agents m)) as Hin.
    { by apply list_elem_of_filter. }
    rewrite H0 in Hin. by apply elem_of_nil in Hin.
Qed.

(** What a run returns, by the outcome of the count computation. *)
Lemma run_model_by_count seed (w h : Z) d (max_steps : Z) :
  0 < w → 0 < h →
  match num_of_agents w h d with
  | Err e => run_model R seed w h d max_steps = Err e
  | Ok n =>
      if decide (n ≤ w * h)
      then ∃ rows, run_model R seed w h d max_steps = Ok rows ∧
                   (max_steps ≤ 0 → rows = [])
      else run_model R seed w h d max_steps = Err IndexError
  end.
Proof.
  intros Hw Hh. unfold run_model.
  destruct (num_of_agents w h d) as [n|e] eqn:Hn.
  - case_decide as Hfit.
    + destruct (Forest_init_ok seed w h d n Hn)
        as (m & -> & _ & _ & _ & _ & _ & _ & Hrows & _); [nia|].
      simpl. eexists. split; [done|]. intros Hms.
      replace (Z.to_nat max_steps) with 0%nat by lia. done.
    + rewrite (Forest_init_IndexError seed w h d n Hn); [done|nia].
  - by rewrite (Forest_init_Err seed w h d e Hn).
Qed.

End Properties.

(** ** The transition rule *)

(** C1. The visit of a tree that is Infected at that moment turns every
    Healthy tree standing on one of the 8 Moore-adjacent cells Infected and
    the visited tree itself Dead, and leaves every other tree as it was; the
    visit of a tree that is not Infected changes nothing at all.  The forest
    is one whose grid and scheduler agree, as they do throughout a run
    ([wf_forest_reachable]). *)
Theorem maybe_spread_infection_spec {R} (m : Forest R) self t :
  wf_forest m → agents m !! self = Some t →
  let m' := maybe_spread_infection self m in
  (condition t = Infected →
     (∀ j u, agents m !! j = Some u → moore_adjacent (pos u) (pos t) →
             condition u = Healthy →
             agents m' !! j = Some (set_condition Infected u)) ∧
     agents m' !! self = Some (set_condition Dead t) ∧
     (∀ j u, agents m !! j = Some u → j ≠ self →
             ¬ (moore_adjacent (pos u) (pos t) ∧ condition u = Healthy) →
             agents m' !! j = Some u)) ∧
  (condition t ≠ Infected → m' = m).
Proof.
  intros Hwf Hself m'. split.
  - intros Hc.
    pose proof (maybe_spread_infection_lookup m self t) as Hlk.
    specialize (λ j, Hlk j Hself Hc). fold m' in Hlk.
    split; [|split].
    + intros j u Hu Hadj Hh. rewrite Hlk.
      destruct (decide (j = self)) as [->|_]; [congruence|].
      rewrite decide_True by (apply (wf_neighbors m t self); eauto).
      rewrite Hu. simpl. unfold catch. by rewrite decide_True.
    + rewrite Hlk. by rewrite decide_True.
    + intros j u Hu Hne Hnot. rewrite Hlk, decide_False, Hu by done. simpl.
      case_decide as Hin; [|done]. unfold catch.
      case_decide as Hh; [|done]. destruct Hnot. split; [|done].
      apply (wf_neighbors m t self) in Hin as (u' & Hu' & Hadj); [|done..].
      congruence.
  - intros Hc. apply maybe_spread_infection_idle. congruence.
Qed.

Lemma maybe_spread_infection_spec_witness :
  ∃ m : Forest fixed_order, Forest_init fixed_order () 2 2 float_one = Ok m ∧
       (condition <$> agents m) = [Infected; Infected; Healthy; Healthy] ∧
       (condition <$> agents (maybe_spread_infection 0 m))
         = [Dead; Infected; Infected; Infected].
Proof.
  destruct (Forest_init_ok (R := fixed_order) () 2 2 float_one 4)
    as (m & Hinit & Hag & Hwf & _); [reflexivity | simpl; lia |].
  exists m. split; [exact Hinit|]. split; [by rewrite Hag|].
  destruct (maybe_spread_infection_spec m 0 (new_tree 0 (0, 0)) Hwf)
    as [Hspread _]; [by rewrite Hag|].
  destruct (Hspread eq_refl) as (Hnb & Hself & Hrest).
  apply list_eq. intros [|[|[|[|j]]]]; rewrite list_lookup_fmap.
  - by rewrite Hself.
  - rewrite (Hrest 1%nat (new_tree 1 (0, 1))); [done|by rewrite Hag|done|].
    by intros [_ ?].
  - rewrite (Hnb 2%nat (new_tree 2 (1, 0))); [done|by rewrite Hag| |done].
    split; [done|simpl; lia].
  - rewrite (Hnb 3%nat (new_tree 3 (1, 1))); [done|by rewrite Hag| |done].
    split; [done|simpl; lia].
  - assert (length (agents (maybe_spread_infection 0 m)) = 4%nat) as Hlen.
    { rewrite <-(length_fmap pos), maybe_spread_infection_sites, length_fmap.
      by rewrite Hag. }
    rewrite lookup_ge_None_2 by (rewrite Hlen; lia). done.
Defined.

(** ** The driver *)

(** C3. [Forest.__init__] marks the run as running.  The driver loop then
    executes exactly [k] steps and returns the history of those [k] steps,
    one row each, where [k] is at most [max_steps] and at least 1 when
    [max_steps] is positive.  After each executed step but the last some
    tree is still Infected and the run is still marked running; after each
    executed step the run is marked finished exactly when no tree is
    Infected; and the loop stops before [max_steps] only at the end of a
    step after which no tree is Infected.  So [k] is the number of the first
    step after which no tree is Infected, or [max_steps] if that comes
    first. *)
Theorem run_model_stops {R} seed (w h : Z) d (max_steps : Z) (m0 : Forest R) :
  Forest_init R seed w h d = Ok m0 →
  running m0 = true ∧
  ∃ k, (k ≤ Z.to_nat max_steps)%nat ∧
       (0 < max_steps → (1 ≤ k)%nat) ∧
       run_loop (Z.to_nat max_steps) m0 = steps k m0 ∧
       run_model R seed w h d max_steps = Ok (datacollector (steps k m0)) ∧
       length (datacollector (steps k m0)) = k ∧
       (∀ j, (0 < j < k)%nat →
             running (steps j m0) = true ∧
             ∃ t, t ∈ agents (steps j m0) ∧ condition t = Infected) ∧
       (∀ j, (0 < j ≤ k)%nat →
             running (steps j m0) = false ↔
             ∀ t, t ∈ agents (steps j m0) → condition t ≠ Infected) ∧
       ((k < Z.to_nat max_steps)%nat →
        (0 < k)%nat ∧ running (steps k m0) = false ∧
        ∀ t, t ∈ agents (steps k m0) → condition t ≠ Infected).
Proof.
  intros Hinit.
  destruct (Forest_init_inv seed w h d m0 Hinit)
    as (n & _ & _ & _ & _ & _ & Hrun & Hrows).
  split; [done|].
  destruct (run_loop_steps (Z.to_nat max_steps) m0 Hrun)
    as (k & Hk & Heq & Hbefore & Hend).
  assert (∀ j, (0 < j ≤ k)%nat →
             running (steps j m0) = false ↔
             ∀ t, t ∈ agents (steps j m0) → condition t ≠ Infected) as Hmark.
  { intros [|j] Hj; [lia|]. rewrite <-count_type_none.
    rewrite steps_S, Forest_step_running.
    case_decide as Hc; [done|]. rewrite Hbefore by lia. done. }
  exists k. split; [done|]. split.
  { intros Hmax. destruct k as [|k]; [|lia].
    assert (running (steps 0 m0) = false) as Hf by (apply Hend; lia).
    simpl in Hf. congruence. }
  split; [done|]. split.
  { unfold run_model. rewrite Hinit. simpl. by rewrite Heq. }
  split; [by rewrite steps_rows_length, Hrows|]. split.
  { intros j Hj. split; [apply Hbefore; lia|].
    apply count_type_some. intros Hnone.
    pose proof (proj1 (count_type_none _ _) Hnone) as Hclean.
    apply (Hmark j) in Hclean; [|lia].
    rewrite Hbefore in Hclean by lia. done. }
  split; [done|].
  intros Hlt. pose proof (Hend Hlt) as Hf.
  assert (0 < k)%nat as Hk0.
  { destruct k; [|lia]. simpl in Hf. congruence. }
  split; [done|]. split; [done|]. apply Hmark; [lia|done].
Qed.

Lemma run_model_stops_witness :
  running row_of_three = true ∧
  run_model fixed_order () 3 1 float_one 5
  = Ok [ {| n_healthy := 0; n_infected := 0; n_dead := 3 |} ] ∧
  agents (run_loop 5 row_of_three)
  = [ {| unique_id := 0; pos := (0, 0); condition := Dead |};
      {| unique_id := 1; pos := (1, 0); condition := Dead |};
      {| unique_id := 2; pos := (2, 0); condition := Dead |} ].
Proof.
  destruct (run_model_stops (R := fixed_order) () 3 1 float_one 5 row_of_three)
    as (Hrunning & k & Hk & Hpos & Hloop & Hrun & Hlen & Hbefore & Hmark & Hend);
    [vm_compute; reflexivity|].
  split; [exact Hrunning|].
  assert (k = 1%nat) as ->.
  { destruct k as [|[|k]]; [specialize (Hpos eq_refl); lia|done|].
    destruct (Hbefore 1%nat) as [Hr _]; [lia|].
    vm_compute in Hr. discriminate Hr. }
  split; [exact Hrun|]. change (Z.to_nat 5) with 5%nat in Hloop.
  rewrite Hloop. reflexivity.
Defined.

(** ** Counts *)

(** C4. Every row of the history a run returns has Healthy, Infected and
    Dead counts that add up to the number of trees created at
    initialisation. *)
Theorem history_rows_sum {R} seed (w h : Z) d (max_steps : Z) rows :
  run_model R seed w h d max_steps = Ok rows →
  ∃ m0 : Forest R,
    Forest_init R seed w h d = Ok m0 ∧
    Forall (λ r, (n_healthy r + n_infected r + n_dead r)%nat
                 = length (agents m0)) rows.
Proof.
  unfold run_model. intros Hrun.
  destruct (Forest_init R seed w h d) as [m0|e] eqn:Hinit; [|done].
  simpl in Hrun. injection Hrun as <-. exists m0. split; [done|].
  destruct (Forest_init_agents seed w h d m0 Hinit) as (n & Hn & Hfit).
  destruct (Forest_init_ok seed w h d n Hn Hfit)
    as (m & Hm & _ & _ & _ & _ & _ & Hrunning & Hrows & _).
  assert (m = m0) as -> by congruence.
  destruct (run_loop_steps (Z.to_nat max_steps) m0 Hrunning) as (k & _ & -> & _).
  clear -Hrows. induction k as [|k IH].
  - simpl. rewrite Hrows. constructor.
  - rewrite steps_S, Forest_step_rows. apply Forall_app. split; [done|].
    constructor; [|constructor]. simpl.
    by rewrite count_type_sum, <-steps_S, steps_length.
Qed.

Lemma history_rows_sum_witness :
  ∃ m0 : Forest lcg,
    Forest_init lcg 2024 4 4 float_half = Ok m0 ∧
    length (agents m0) = 8%nat ∧
    Forall (λ r, (n_healthy r + n_infected r + n_dead r)%nat = 8%nat)
      [ {| n_healthy := 4; n_infected := 1; n_dead := 3 |};
        {| n_healthy := 0; n_infected := 3; n_dead := 5 |};
        {| n_healthy := 0; n_infected := 0; n_dead := 8 |} ].
Proof.
  destruct (history_rows_sum (R := lcg) 2024 4 4 float_half 100
    [ {| n_healthy := 4; n_infected := 1; n_dead := 3 |};
      {| n_healthy := 0; n_infected := 3; n_dead := 5 |};
      {| n_healthy := 0; n_infected := 0; n_dead := 8 |} ])
    as (m0 & Hinit & Hrows); [vm_compute; reflexivity|].
  exists m0. split; [exact Hinit|].
  destruct (Forest_init_inv (R := lcg) 2024 4 4 float_half m0 Hinit)
    as (n & Hn & _ & Hlen & _).
  assert (n = 8) as -> by (vm_compute in Hn; congruence).
  split; [exact Hlen|]. rewrite Hlen in Hrows. exact Hrows.
Defined.

(** ** Conditions only move forward *)

(** C5. A visit changes the condition of a tree at most once, and then from
    Healthy to Infected or from Infected to Dead; over any number of steps a
    tree never moves backward, and a Dead tree stays exactly as it is. *)
Theorem condition_forward {R} (m : Forest R) (j : nat) (u : Ash_Tree) :
  agents m !! j = Some u →
  (∀ self, ∃ u', agents (maybe_spread_infection self m) !! j = Some u' ∧
                 forward_step (condition u) (condition u')) ∧
  (∀ k, ∃ u', agents (steps k m) !! j = Some u' ∧
              (rank (condition u) ≤ rank (condition u'))%nat ∧
              (condition u = Dead → u' = u)).
Proof.
  intros Hu. split.
  - intros self.
    destruct (maybe_spread_infection_forward m self j u Hu) as (u' & ? & _ & _ & ?).
    eauto.
  - intros k. destruct (steps_later k m j u Hu) as (u' & Hu' & Hl).
    exists u'. split; [done|]. split; [apply Hl|].
    by apply later_Dead.
Qed.

Lemma condition_forward_witness :
  (∀ self, ∃ u', agents (maybe_spread_infection self row_of_three) !! 1%nat
                 = Some u' ∧ forward_step Healthy (condition u')) ∧
  (∀ k, ∃ u', agents (steps k row_of_three) !! 1%nat = Some u' ∧
              (0 ≤ rank (condition u'))%nat ∧
              (Healthy = Dead →
               u' = {| unique_id := 1; pos := (1, 0); condition := Healthy |})).
Proof.
  apply (condition_forward row_of_three 1
           {| unique_id := 1; pos := (1, 0); condition := Healthy |}).
  reflexivity.
Defined.

(** ** Seeding of the infection *)

(** C7. A tree created at initialisation starts Infected exactly when its
    x-coordinate is 0; a tree placed at any other x starts Healthy. *)
Theorem initial_condition {R} seed (w h : Z) d (m : Forest R) (t : Ash_Tree) :
  Forest_init R seed w h d = Ok m → t ∈ agents m →
  (condition t = Infected ↔ (pos t).1 = 0) ∧
  ((pos t).1 ≠ 0 → condition t = Healthy).
Proof.
  intros Hinit Ht.
  destruct (Forest_init_agents seed w h d m Hinit) as (n & Hn & Hfit).
  destruct (Forest_init_ok seed w h d n Hn Hfit) as (m' & Hm & Hag & _).
  assert (m' = m) as -> by congruence.
  rewrite Hag in Ht. apply elem_of_lookup_imap in Ht as (i & p & -> & _).
  unfold new_tree. simpl. case_decide; split; done.
Qed.

Lemma initial_condition_witness :
  ∃ m : Forest lcg,
    Forest_init lcg 2024 4 4 float_half = Ok m ∧
    (pos <$> agents m) !! 3%nat = Some (0, 2) ∧
    (condition <$> agents m) !! 3%nat = Some Infected ∧
    (Infected = Infected ↔ (0, 2).1 = 0) ∧
    ((0, 2).1 ≠ 0 → Infected = Healthy).
Proof.
  destruct (Forest_init_ok (R := lcg) 2024 4 4 float_half 8)
    as (m & Hinit & Hag & _); [reflexivity | vm_compute; lia |].
  exists m. split; [exact Hinit|].
  assert (agents m !! 3%nat
          = Some {| unique_id := 3; pos := (0, 2); condition := Infected |}) as H3.
  { rewrite Hag. vm_compute. reflexivity. }
  rewrite !list_lookup_fmap, H3. split; [done|]. split; [done|].
  apply (initial_condition (R := lcg) 2024 4 4 float_half m
           {| unique_id := 3; pos := (0, 2); condition := Infected |} Hinit).
  by eapply list_elem_of_lookup_2.
Defined.

(** ** No infection left *)

(** C10. When no tree is Infected, a step leaves every tree as it is and
    appends a row with Infected count zero and the Healthy and Dead counts of
    before the step; so the next state has no Infected tree either. *)
Theorem zero_infected_absorbing {R} (m : Forest R) :
  count_type m Infected = 0%nat →
  agents (Forest_step m) = agents m ∧
  datacollector (Forest_step m)
    = datacollector m ++ [ {| n_healthy := count_type m Healthy;
                              n_infected := 0;
                              n_dead := count_type m Dead |} ] ∧
  count_type (Forest_step m) Infected = 0%nat.
Proof.
  intros H0.
  assert (agents (Forest_step m) = agents m) as Hag.
  { by rewrite Forest_step_agents, visit_idle. }
  split; [done|]. split.
  - rewrite Forest_step_rows. unfold row_of.
    by rewrite !(count_type_agents m (Forest_step m)), H0.
  - by rewrite (count_type_agents m (Forest_step m)).
Qed.

Lemma zero_infected_absorbing_witness :
  ∃ m : Forest fixed_order,
    m = steps 1 row_of_three ∧
    (condition <$> agents m) = [Dead; Dead; Dead] ∧
    agents (Forest_step m) = agents m ∧
    datacollector (Forest_step m)
      = [ {| n_healthy := 0; n_infected := 0; n_dead := 3 |};
          {| n_healthy := 0; n_infected := 0; n_dead := 3 |} ].
Proof.
  exists (steps 1 row_of_three). split; [reflexivity|]. split; [reflexivity|].
  destruct (zero_infected_absorbing (steps 1 row_of_three)) as (Hag & Hrows & _);
    [reflexivity|].
  split; [exact Hag|]. rewrite Hrows. reflexivity.
Defined.

(** ** Acting within the step *)

(** C2, as the code has it.  What a tree does in a step depends on its
    condition at the moment of its own visit, not at the start of the step.
    A tree that is still Healthy when visited changes nothing by its visit
    and is not Dead at the end of the step.  A tree that is Infected when
    visited, also one infected by an earlier visit of the same step, is Dead
    at the end of that step, and none of the neighbours it found Healthy is
    Healthy any more. *)
Theorem acts_by_condition_at_visit {R} (m : Forest R)
    (order1 : list nat) (self : nat) (order2 : list nat) (t : Ash_Tree) :
  wf_forest m →
  step_order m = order1 ++ self :: order2 →
  agents (visit order1 m) !! self = Some t →
  (condition t = Healthy →
     maybe_spread_infection self (visit order1 m) = visit order1 m ∧
     ∃ t', agents (Forest_step m) !! self = Some t' ∧ condition t' ≠ Dead) ∧
  (condition t = Infected →
     agents (Forest_step m) !! self = Some (set_condition Dead t) ∧
     ∀ j u, agents (visit order1 m) !! j = Some u →
            moore_adjacent (pos u) (pos t) → condition u = Healthy →
            ∃ u', agents (Forest_step m) !! j = Some u' ∧
                  condition u' ≠ Healthy).
Proof.
  intros Hwf Horder Ht.
  pose proof (step_order_NoDup m) as Hnd. rewrite Horder in Hnd.
  apply NoDup_app in Hnd as (_ & _ & Hnd). apply NoDup_cons in Hnd as [Hself _].
  rewrite Forest_step_agents, Horder, visit_app. simpl.
  unfold Ash_Tree_step. split.
  - intros Hc.
    assert (maybe_spread_infection self (visit order1 m) = visit order1 m) as ->.
    { apply maybe_spread_infection_idle. intros t' Ht'. congruence. }
    split; [done|].
    apply (visit_others_alive order2 _ self t); [done..|congruence].
  - intros Hc.
    pose proof (maybe_spread_infection_lookup (visit order1 m) self t) as Hlk.
    specialize (λ j, Hlk j Ht Hc). split.
    + pose proof (Hlk self) as Hdead. rewrite decide_True in Hdead by done.
      destruct (visit_later order2 _ self _ Hdead) as (t' & Ht' & Hl).
      rewrite Ht'. f_equal. by apply later_Dead.
    + intros j u Hu Hadj Hh.
      assert (agents (maybe_spread_infection self (visit order1 m)) !! j
              = Some (set_condition Infected u)) as Hinf.
      { rewrite Hlk. destruct (decide (j = self)) as [->|_]; [congruence|].
        rewrite decide_True, Hu.
        - simpl. unfold catch. by rewrite decide_True.
        - apply (wf_neighbors _ t self); eauto using wf_forest_visit. }
      destruct (visit_later order2 _ j _ Hinf) as (u' & Hu' & _ & _ & Hrank).
      exists u'. split; [done|]. intros Hu'h. rewrite Hu'h in Hrank.
      simpl in Hrank. lia.
Qed.

Lemma acts_by_condition_at_visit_witness :
  step_order row_of_three = [0; 1; 2]%nat ∧
  (condition <$> agents row_of_three) = [Infected; Healthy; Healthy] ∧
  (condition <$> agents (visit [0%nat] row_of_three))
    = [Dead; Infected; Healthy] ∧
  agents (Forest_step row_of_three) !! 1%nat
    = Some {| unique_id := 1; pos := (1, 0); condition := Dead |} ∧
  ∃ u', agents (Forest_step row_of_three) !! 2%nat = Some u' ∧
        condition u' ≠ Healthy.
Proof.
  split; [reflexivity|]. split; [reflexivity|]. split; [reflexivity|].
  destruct (Forest_init_ok (R := fixed_order) () 3 1 float_one 3)
    as (m & Hinit & _ & Hwf & _); [reflexivity | simpl; lia |].
  assert (m = row_of_three) as ->.
  { revert Hinit. vm_compute. by intros [= <-]. }
  destruct (acts_by_condition_at_visit row_of_three [0%nat] 1 [2%nat]
              {| unique_id := 1; pos := (1, 0); condition := Infected |} Hwf)
    as [_ Hacts]; [reflexivity..|].
  destruct (Hacts eq_refl) as [Hdead Hnb]. split; [exact Hdead|].
  apply (Hnb 2%nat {| unique_id := 2; pos := (2, 0); condition := Healthy |});
    [reflexivity | | reflexivity].
  split; [done | simpl; lia].
Defined.

(** C2, as stated, fails: in a row of three trees visited from left to
    right, the middle tree is Healthy when the step starts, and by the end of
    the same step it has infected its right neighbour and is Dead. *)
Lemma newly_infected_acts_in_same_step :
  ¬ (∀ (m : Forest fixed_order) (j : nat) (u u' : Ash_Tree),
       wf_forest m →
       agents m !! j = Some u → condition u = Healthy →
       agents (Forest_step m) !! j = Some u' → condition u' ≠ Dead).
Proof.
  intros Hclaim.
  destruct (Forest_init_ok (R := fixed_order) () 3 1 float_one 3)
    as (m & Hinit & _ & Hwf & _); [reflexivity | simpl; lia |].
  assert (m = row_of_three) as ->.
  { revert Hinit. vm_compute. by intros [= <-]. }
  by apply (Hclaim row_of_three 1%nat
              {| unique_id := 1; pos := (1, 0); condition := Healthy |}
              {| unique_id := 1; pos := (1, 0); condition := Dead |} Hwf).
Qed.

(** ** Population *)

(** C6, as the code has it.  For a valid configuration with fewer than 2^53
    cells, initialisation succeeds and creates exactly [floor(W×H×D)] trees
    where [W×H×D] is the binary64 product the code computes: [W×H], which
    converts exactly, times the double [D], rounded to nearest.  Against the
    exact product with that double, the count is its floor or one more; it
    is its floor whenever the exact product is an integer; it is never
    negative and never more than the number of cells.  No two trees stand
    on the same cell. *)
Theorem Forest_init_population {R} seed (w h : Z) (d : float) :
  0 < w → 0 < h → w * h < 2 ^ 53 → density_valid d →
  ∃ (f : float) (n : Z) (m : Forest R),
    int_mul_float (w * h) d = Ok f ∧
    n = floor_float f ∧
    floor_mul (w * h) d ≤ n ≤ floor_mul (w * h) d + 1 ∧
    (mul_is_integer (w * h) d → n = floor_mul (w * h) d) ∧
    0 ≤ n ≤ w * h ∧
    Forest_init R seed w h d = Ok m ∧
    Z.of_nat (length (agents m)) = n ∧
    NoDup (pos <$> agents m).
Proof.
  intros Hw Hh Hcells Hd.
  assert (0 < w * h < 2 ^ 53) as Hwh by nia.
  destruct (num_of_agents_bounds w h d Hwh Hd) as (n & Hn & Hfloor & Hn0 & Hfit).
  destruct (num_of_agents_cases w h d Hwh) as (f & Hf & Hint & Hshape).
  destruct (Forest_init_ok seed w h d n Hn) as (m & Hinit & Hag & _); [nia|].
  exists f, n, m. split; [done|]. split.
  { apply int_of_float_floor; [|congruence].
    destruct (density_valid_inv d Hd) as [[s ->]|(my & ey & -> & _)].
    - by rewrite Hshape.
    - destruct f as [| | |[] ? ?]; done. }
  split; [done|]. split.
  { intros Hexact. pose proof (num_of_agents_integer w h d Hwh Hd Hexact).
    congruence. }
  split; [done|]. split; [done|].
  rewrite Hag. split.
  - rewrite length_imap, length_take_le; [lia|].
    rewrite shuffle_perm, length_all_cells. nia.
  - rewrite imap_new_tree_pos.
    eapply sublist_NoDup; [|apply sublist_take].
    rewrite shuffle_perm. apply NoDup_all_cells.
Qed.

Lemma Forest_init_population_witness :
  ∃ m : Forest lcg,
    int_mul_float (50 * 50) float_0_3
      = Ok (S754_finite false 6597069766656000 (-43)) ∧
    floor_float (S754_finite false 6597069766656000 (-43)) = 750 ∧
    floor_mul (50 * 50) float_0_3 = 749 ∧
    Forest_init lcg 42 50 50 float_0_3 = Ok m ∧
    Z.of_nat (length (agents m)) = 750 ∧
    NoDup (pos <$> agents m).
Proof.
  destruct (Forest_init_population (R := lcg) 42 50 50 float_0_3)
    as (f & n & m & Hf & Hn & _ & _ & _ & Hinit & Hlen & Hnd);
    [lia | lia | done | by repeat split |].
  assert (f = S754_finite false 6597069766656000 (-43)) as ->.
  { vm_compute in Hf. congruence. }
  assert (n = 750) as -> by (rewrite Hn; reflexivity).
  exists m. split; [vm_compute; reflexivity|]. split; [reflexivity|].
  split; [vm_compute; reflexivity|].
  split; [exact Hinit|]. split; [exact Hlen | exact Hnd].
Defined.

(** The doubles of the examples are the ones Python computes. *)
Example float_literals :
  int_truediv 1 3 = Ok float_third ∧ int_truediv 3 10 = Ok float_0_3 ∧
  int_truediv 29 100 = Ok float_0_29 ∧
  num_of_agents 3 1 float_third = Ok 1 ∧ floor_mul (3 * 1) float_third = 0.
Proof. repeat split. Qed.

(** C6, as stated, fails when the product is the product of the numbers the
    caller writes.  For a 10 by 10 grid and the density [0.29], which reaches
    the code as the double nearest to 29/100, the code creates 28 trees: one
    fewer than [floor(10 × 10 × 0.29) = 29].  (For 50, 50 and [0.3] both give
    750, as in the notebook.) *)
Lemma count_differs_from_floor_of_decimal :
  ¬ (∀ (w h a b : Z) (d : float) (m : Forest fixed_order),
       0 < w → 0 < h → 0 ≤ a ≤ b → 0 < b →
       int_truediv a b = Ok d →
       Forest_init fixed_order () w h d = Ok m →
       Z.of_nat (length (agents m)) = (w * h * a) `div` b ∧
       NoDup (pos <$> agents m)).
Proof.
  intros Hclaim.
  destruct (Forest_init_ok (R := fixed_order) () 10 10 float_0_29 28)
    as (m & Hinit & Hag & _); [reflexivity | vm_compute; lia |].
  destruct (Hclaim 10 10 29 100 float_0_29 m) as [Hcount _];
    [lia | lia | lia | lia | reflexivity | exact Hinit |].
  rewrite Hag, length_imap, length_take_le in Hcount.
  - vm_compute in Hcount. discriminate Hcount.
  - rewrite (shuffle_perm fixed_order), length_all_cells. vm_compute. lia.
Qed.

(** ** Failure *)

(** C8, as the code has it.  The code validates nothing.  On a grid of
    positive dimensions with fewer than 2^53 cells a run fails in exactly
    three ways: with [ValueError] exactly when the density is a NaN; with
    [OverflowError] exactly when the binary64 product [W*H*D] is infinite,
    as it is for an infinite density; with [IndexError] exactly when the
    count [int(W*H*D)] is computed and exceeds the number of cells.
    Whenever the count is computed and fits the grid, as it does for every
    density in [0, 1], the run returns a history, and with
    [max_steps ≤ 0] that history is empty. *)
Theorem run_model_failures {R} seed (w h : Z) d (max_steps : Z) :
  0 < w → 0 < h → w * h < 2 ^ 53 →
  let run := run_model R seed w h d max_steps in
  (run = Err ValueError ↔ d = S754_nan) ∧
  (run = Err OverflowError ↔
     ∃ s, int_mul_float (w * h) d = Ok (S754_infinity s)) ∧
  (∀ s, d = S754_infinity s → run = Err OverflowError) ∧
  (run = Err IndexError ↔ ∃ n, num_of_agents w h d = Ok n ∧ w * h < n) ∧
  (∀ e, run = Err e → e = ValueError ∨ e = OverflowError ∨ e = IndexError) ∧
  ((∃ n, num_of_agents w h d = Ok n ∧ n ≤ w * h) →
     ∃ rows, run = Ok rows ∧ (max_steps ≤ 0 → rows = [])) ∧
  (density_valid d → ∃ rows, run = Ok rows ∧ (max_steps ≤ 0 → rows = [])).
Proof.
  intros Hw Hh Hcells run.
  assert (0 < w * h < 2 ^ 53) as Hwh by nia.
  pose proof (run_model_by_count (R := R) seed w h d max_steps Hw Hh) as Hrun.
  fold run in Hrun. clearbody run.
  destruct (num_of_agents_cases w h d Hwh) as (f & Hf & Hint & Hshape).
  rewrite Hf.
  assert (f = S754_nan ↔ d = S754_nan) as Hnan.
  { destruct d, f; done. }
  assert (∀ s, d = S754_infinity s → f = S754_infinity s) as Hinf.
  { by intros s ->. }
  assert (density_valid d → ∃ n, num_of_agents w h d = Ok n ∧ n ≤ w * h)
    as Hvalid.
  { intros Hd.
    destruct (num_of_agents_bounds w h d Hwh Hd) as (n & Hn & _ & _ & Hfit).
    eauto. }
  clear Hshape Hf.
  destruct (num_of_agents w h d) as [n|e] eqn:Hn.
  - (* the count is computed *)
    assert (f ≠ S754_nan ∧ ∀ s, f ≠ S754_infinity s) as [Hf1 Hf2].
    { split; [|intros s]; intros ->; done. }
    assert (d ≠ S754_nan) as Hd1 by (by rewrite <-Hnan).
    assert (∀ s, d ≠ S754_infinity s) as Hd2.
    { intros s Hd. by apply (Hf2 s), Hinf. }
    case_decide as Hfit.
    + destruct Hrun as (rows & -> & Hempty).
      split; [done|]. split; [split; [done|]|].
      { intros (s & [= Hs]). by destruct (Hf2 s). }
      split; [intros s Hs; by destruct (Hd2 s)|].
      split; [split; [done|]|].
      { intros (n' & [= <-] & ?). lia. }
      split; [done|]. split; eauto.
    + rewrite Hrun. split; [done|]. split; [split; [done|]|].
      { intros (s & [= Hs]). by destruct (Hf2 s). }
      split; [intros s Hs; by destruct (Hd2 s)|].
      split; [split; [|done]|].
      { intros _. exists n. split; [done|lia]. }
      split; [intros e [= <-]; auto|].
      split; [intros (n' & [= <-] & ?); lia|].
      intros Hd. destruct (Hvalid Hd) as (n' & [= <-] & ?). lia.
  - (* the count computation raises *)
    rewrite Hrun.
    assert ((f = S754_nan ∧ e = ValueError) ∨
            ((∃ s, f = S754_infinity s) ∧ e = OverflowError)) as Hcase.
    { destruct f; simpl in Hint; try done; injection Hint as ->; eauto. }
    destruct Hcase as [[Hfn ->]|[[s Hfs] ->]].
    + assert (d = S754_nan) as Hd by (by apply Hnan).
      split; [done|]. split; [split; [done|]|].
      { intros (s & [= Hs]). congruence. }
      split; [intros s Hs; congruence|].
      split; [split; [done|by intros (n & [=] & _)]|].
      split; [intros e [= <-]; auto|].
      split; [by intros (n & [=] & _)|].
      intros Hv. by destruct (Hvalid Hv) as (n & [=] & _).
    + assert (d ≠ S754_nan) as Hd.
      { rewrite <-Hnan. congruence. }
      split; [done|]. split; [split; [intros _; exists s; by rewrite Hfs|done]|].
      split; [done|].
      split; [split; [done|by intros (n & [=] & _)]|].
      split; [intros e [= <-]; auto|].
      split; [by intros (n & [=] & _)|].
      intros Hv. by destruct (Hvalid Hv) as (n & [=] & _).
Qed.

Lemma run_model_failures_witness :
  run_model lcg 42 2 2 S754_nan 10 = Err ValueError ∧
  run_model lcg 42 2 2 (S754_infinity false) 10 = Err OverflowError ∧
  run_model lcg 42 2 2 (S754_finite false 6755399441055744 (-52)) 10
    = Err IndexError ∧
  ∃ rows, run_model lcg 42 50 50 float_0_3 (-1) = Ok rows ∧
          (-1 ≤ 0 → rows = []).
Proof.
  split; [|split; [|split]].
  - apply (run_model_failures (R := lcg) 42 2 2 S754_nan 10); [lia..|done|done].
  - eapply (run_model_failures (R := lcg) 42 2 2 (S754_infinity false) 10);
      [lia|lia|done|done].
  - apply (run_model_failures (R := lcg) 42 2 2
             (S754_finite false 6755399441055744 (-52)) 10); [lia|lia|done|].
    exists 6. split; [reflexivity|lia].
  - apply (run_model_failures (R := lcg) 42 50 50 float_0_3 (-1));
      [lia|lia|done|]. by repeat split.
Defined.

(** C8, as stated, fails: [max_steps = 0] is accepted.  The forest is built
    (here with two trees) and the driver returns the empty history; no error
    reaches the caller. *)
Lemma max_steps_zero_is_accepted :
  ¬ (∀ (w h : Z) (d : float) (max_steps : Z),
       w ≤ 0 ∨ h ≤ 0 ∨ ¬ density_valid d ∨ max_steps ≤ 0 →
       ∃ e, run_model fixed_order () w h d max_steps = Err e).
Proof.
  intros Hclaim.
  destruct (Hclaim 2 2 float_half 0) as [e He]; [right; right; right; lia|].
  vm_compute in He. discriminate He.
Qed.

(** ** Runs under two random sources *)

Section TwoSources.
Context {R1 R2 : RandomSource}.
Implicit Types (m : Forest R1) (r : rng R2) (sim : rng R1 → rng R2 → Prop).

Lemma retag_maybe_spread_infection self m r :
  maybe_spread_infection self (retag m r)
  = retag (maybe_spread_infection self m) r.
Proof.
  unfold maybe_spread_infection. simpl.
  destruct (agents m !! self) as [t|]; [|done]. by case_decide.
Qed.

Lemma retag_visit order m r : visit order (retag m r) = retag (visit order m) r.
Proof.
  revert m. induction order as [|i order IH]; intros m; [done|].
  simpl. unfold Ash_Tree_step. by rewrite retag_maybe_spread_infection, IH.
Qed.

Lemma retag_Forest_step sim m r :
  agree sim → sim (random m) r →
  ∃ r', Forest_step (retag m r) = retag (Forest_step m) r' ∧
        sim (random (Forest_step m)) r'.
Proof.
  intros [Hord Hnext] Hsim. unfold Forest_step, schedule_step. simpl.
  specialize (Hord nat _ _ (seq 0 (length (agents m))) Hsim).
  specialize (Hnext nat _ _ (seq 0 (length (agents m))) Hsim).
  destruct (shuffle R1 (random m) _) as [order r1'].
  destruct (shuffle R2 r _) as [order2 r2']. simpl in *. subst order2.
  exists r2'.
  change (set_random r2' (retag m r)) with (retag (set_random r1' m) r2').
  rewrite retag_visit.
  destruct (visit_frame order (set_random r1' m)) as (_&_&_&_&Hr&_).
  change (count_type (collect (retag ?x r2')) Infected)
    with (count_type (collect x) Infected).
  case_decide; (split; [done|]); simpl; by rewrite Hr.
Qed.

Lemma retag_run_loop sim n m r :
  agree sim → sim (random m) r →
  datacollector (run_loop n (retag m r)) = datacollector (run_loop n m).
Proof.
  intros Hag. revert m r. induction n as [|n IH]; intros m r Hsim; [done|].
  simpl. destruct (running m); [|done].
  destruct (retag_Forest_step sim m r Hag Hsim) as (r' & -> & Hsim').
  by apply IH.
Qed.

Lemma retag_for_each ps (m : Forest R1) r l :
  for_each (add_tree ps) (retag m r) l
  = match for_each (add_tree ps) m l with
    | Ok m' => Ok (retag m' r)
    | Err e => Err e
    end.
Proof.
  revert m. induction l as [|i l IH]; intros m; [done|].
  simpl. unfold add_tree at 1 3. simpl.
  destruct (ps !! i) as [[x y]|]; [|done].
  destruct (place_agent _ _ _ _ _) as [g|e]; [|done].
  simpl. apply (IH (Build_Forest R1 _ _ _ _ _ _ _ _)).
Qed.

(** The history depends on the random source only through the orders it
    hands out: two sources that agree give the same run. *)
Lemma run_model_same_orders sim seed1 seed2 (w h : Z) d (max_steps : Z) :
  agree sim → sim seed1 seed2 →
  run_model R1 seed1 w h d max_steps = run_model R2 seed2 w h d max_steps.
Proof.
  intros Hag Hsim. unfold run_model. rewrite !Forest_init_unfold.
  pose proof (agree_order sim Hag _ _ _ (all_cells w h) Hsim) as Hord.
  pose proof (agree_next sim Hag _ _ _ (all_cells w h) Hsim) as Hnext.
  destruct (shuffle R1 seed1 _) as [ps r1], (shuffle R2 seed2 _) as [ps2 r2].
  simpl in *. subst ps2.
  destruct (num_of_agents w h d) as [n|e]; [|done]. simpl.
  change (Build_Forest R2 w h d true r2 ∅ [] [])
    with (retag (Build_Forest R1 w h d true r1 ∅ [] []) r2).
  rewrite retag_for_each.
  destruct (create_trees_ok_or_not ps (Build_Forest R1 w h d true r1 ∅ [] [])
              (seq 0 (Z.to_nat n))) as [(m & Hm & Hr)|(e & He)].
  - rewrite Hm. simpl. f_equal. symmetry.
    apply (retag_run_loop sim); [done|]. by rewrite Hr.
  - by rewrite He.
Qed.

End TwoSources.

(** * Further properties *)

(** ** The example forests *)

Lemma float_0_8_literal : int_truediv 4 5 = Ok float_0_8.
Proof. vm_compute. reflexivity. Qed.

Lemma row_of_three_init :
  Forest_init fixed_order () 3 1 float_one = Ok row_of_three ∧
  wf_forest row_of_three.
Proof.
  destruct (Forest_init_ok (R := fixed_order) () 3 1 float_one 3)
    as (m & Hinit & _ & Hwf & _); [reflexivity | simpl; lia |].
  assert (m = row_of_three) as ->; [|done].
  revert Hinit. vm_compute. by intros [= <-].
Qed.

(** [Forest(5, 1, 0.8)] from seed 0: four trees, the cell [(2, 0)] is left
    empty. *)
Lemma Forest_init_gap :
  ∃ m : Forest lcg,
    Forest_init lcg 0 5 1 float_0_8 = Ok m ∧ wf_forest m ∧
    agents m = [ {| unique_id := 0; pos := (0, 0); condition := Infected |};
                 {| unique_id := 1; pos := (3, 0); condition := Healthy |};
                 {| unique_id := 2; pos := (4, 0); condition := Healthy |};
                 {| unique_id := 3; pos := (1, 0); condition := Healthy |} ].
Proof.
  destruct (Forest_init_ok (R := lcg) 0 5 1 float_0_8 4)
    as (m & Hinit & Hag & Hwf & _); [reflexivity | vm_compute; lia |].
  exists m. split; [done|]. split; [done|].
  rewrite Hag. vm_compute. reflexivity.
Qed.

(** [Forest(5, 1, 0.8)] from seed 3: four trees, none in the first column. *)
Lemma Forest_init_no_source :
  ∃ m : Forest lcg,
    Forest_init lcg 3 5 1 float_0_8 = Ok m ∧
    pos <$> agents m = [(2, 0); (1, 0); (4, 0); (3, 0)].
Proof.
  destruct (Forest_init_ok (R := lcg) 3 5 1 float_0_8 4)
    as (m & Hinit & Hag & Hwf & _); [reflexivity | vm_compute; lia |].
  exists m. split; [done|].
  rewrite Hag. vm_compute. reflexivity.
Qed.

(** ** The life of an infection *)

(** X1. A tree that is Infected when a step starts is Dead when the step
    ends and stays so; every tree standing next to it is Dead at the end of
    the following step at the latest. *)
Theorem infection_kills_within_two_steps {R} (m : Forest R) i t :
  wf_forest m → agents m !! i = Some t → condition t = Infected →
  (∀ k, agents (steps (S k) m) !! i = Some (set_condition Dead t)) ∧
  (∀ j u k, agents m !! j = Some u → moore_adjacent (pos u) (pos t) →
            agents (steps (S (S k)) m) !! j = Some (set_condition Dead u)).
Proof.
  intros Hwf Ht Hc. split; [intros k; by apply steps_infected|].
  intros j u k Hu Hadj.
  destruct (Forest_step_neighbor m i j t u Hwf Ht Hc Hu Hadj)
    as (u' & Hu' & Hc').
  destruct (Forest_step_later m j u Hu) as (u1 & Hu1 & Hid & Hpos & _).
  assert (u1 = u') as -> by congruence.
  assert (set_condition Dead u = set_condition Dead u') as ->.
  { unfold set_condition. by rewrite Hid, Hpos. }
  change (steps (S (S k)) m) with (steps (S k) (Forest_step m)).
  destruct (condition u') eqn:Ec; [done| |].
  - by apply steps_infected.
  - apply steps_dead; [|done]. rewrite Hu'. f_equal.
    destruct u'. simpl in *. by subst.
Qed.

Lemma infection_kills_within_two_steps_witness :
  (∀ k, agents (steps (S k) row_of_three) !! 0%nat
        = Some {| unique_id := 0; pos := (0, 0); condition := Dead |}) ∧
  (∀ k, agents (steps (S (S k)) row_of_three) !! 1%nat
        = Some {| unique_id := 1; pos := (1, 0); condition := Dead |}).
Proof.
  destruct (infection_kills_within_two_steps row_of_three 0
              {| unique_id := 0; pos := (0, 0); condition := Infected |})
    as [Hself Hnb]; [apply row_of_three_init | reflexivity | reflexivity |].
  split; [exact Hself|]. intros k.
  apply (Hnb 1%nat {| unique_id := 1; pos := (1, 0); condition := Healthy |} k);
    [reflexivity|].
  split; [done | simpl; lia].
Defined.

(** ** The history *)

(** X2. Along the history the Healthy count never grows, and the Dead count
    of a row is at least the Dead count plus the Infected count of the row
    before it: every tree counted Infected is counted Dead one row later. *)
Theorem history_monotone {R} seed (w h : Z) d (max_steps : Z)
    (rows : list counts) (i : nat) (r r' : counts) :
  run_model R seed w h d max_steps = Ok rows →
  rows !! i = Some r → rows !! S i = Some r' →
  (n_healthy r' ≤ n_healthy r)%nat ∧
  (n_dead r + n_infected r ≤ n_dead r')%nat.
Proof.
  intros Hrun Hr Hr'.
  destruct (Forest_init R seed w h d) as [m0|e] eqn:Hinit.
  2:{ unfold run_model in Hrun. by rewrite Hinit in Hrun. }
  destruct (run_model_rows seed w h d max_steps m0 Hinit)
    as (k & _ & _ & Hrows & _).
  rewrite Hrun in Hrows. injection Hrows as ->.
  apply census_lookup in Hr as [-> _]. apply census_lookup in Hr' as [-> _].
  rewrite (steps_S (S i)). apply Forest_step_counts.
Qed.

Lemma history_monotone_witness :
  (0 ≤ 4)%nat ∧ (3 + 1 ≤ 5)%nat.
Proof.
  apply (history_monotone (R := lcg) 2024 4 4 float_half 100
           [ {| n_healthy := 4; n_infected := 1; n_dead := 3 |};
             {| n_healthy := 0; n_infected := 3; n_dead := 5 |};
             {| n_healthy := 0; n_infected := 0; n_dead := 8 |} ] 0
           {| n_healthy := 4; n_infected := 1; n_dead := 3 |}
           {| n_healthy := 0; n_infected := 3; n_dead := 5 |});
    [vm_compute; reflexivity | reflexivity | reflexivity].
Defined.

(** X3. A run ends by itself: the history has at most as many rows as there
    are trees (one row for an empty forest); every row but the last still
    counts an Infected tree and, being row number [i], at least [i + 1] Dead
    ones; and when [max_steps] is at least the number of trees, the last row
    counts no Infected tree. *)
Theorem run_model_ends {R} seed (w h : Z) d (max_steps : Z)
    (m0 : Forest R) (rows : list counts) :
  Forest_init R seed w h d = Ok m0 →
  run_model R seed w h d max_steps = Ok rows →
  (length rows ≤ Nat.max 1 (length (agents m0)))%nat ∧
  (∀ i r, rows !! i = Some r → (S i < length rows)%nat →
          (0 < n_infected r)%nat ∧ (S i ≤ n_dead r)%nat) ∧
  ((Nat.max 1 (length (agents m0)) ≤ Z.to_nat max_steps)%nat →
   ∃ r, last rows = Some r ∧ n_infected r = 0%nat).
Proof.
  intros Hinit Hrun.
  destruct (run_model_rows seed w h d max_steps m0 Hinit)
    as (k & _ & Hbound & Hrows & Hbefore & Hend).
  rewrite Hrun in Hrows. injection Hrows as ->.
  rewrite length_fmap, length_seq. split; [done|]. split.
  - intros i r Hr Hi. apply census_lookup in Hr as [-> _].
    pose proof (Hbefore (S i) Hi) as Hr. unfold row_of, n_infected, n_dead.
    pose proof (steps_running_infected i m0 Hr).
    pose proof (steps_running_dead i m0 Hr). lia.
  - intros Hn. destruct (Hend Hn) as [Hk H0].
    destruct k as [|k]; [lia|].
    exists (row_of (steps (S k) m0)). split; [|done].
    by rewrite seq_S, fmap_app, fmap_cons, fmap_nil, last_snoc.
Qed.

Lemma run_model_ends_witness :
  ∃ m0 : Forest lcg,
    Forest_init lcg 2024 4 4 float_half = Ok m0 ∧
    length (agents m0) = 8%nat ∧
    (3 ≤ 8)%nat ∧
    (∀ i r, [ {| n_healthy := 4; n_infected := 1; n_dead := 3 |};
              {| n_healthy := 0; n_infected := 3; n_dead := 5 |};
              {| n_healthy := 0; n_infected := 0; n_dead := 8 |} ] !! i
            = Some r → (S i < 3)%nat →
            (0 < n_infected r)%nat ∧ (S i ≤ n_dead r)%nat) ∧
    ∃ r, Some {| n_healthy := 0; n_infected := 0; n_dead := 8 |} = Some r ∧
         n_infected r = 0%nat.
Proof.
  destruct (Forest_init_ok (R := lcg) 2024 4 4 float_half 8)
    as (m0 & Hinit & _); [reflexivity | vm_compute; lia |].
  exists m0. split; [exact Hinit|].
  destruct (Forest_init_inv (R := lcg) 2024 4 4 float_half m0 Hinit)
    as (n & Hn & _ & Hlen & _).
  assert (n = 8) as -> by (vm_compute in Hn; congruence).
  split; [exact Hlen|].
  destruct (run_model_ends (R := lcg) 2024 4 4 float_half 100 m0
    [ {| n_healthy := 4; n_infected := 1; n_dead := 3 |};
      {| n_healthy := 0; n_infected := 3; n_dead := 5 |};
      {| n_healthy := 0; n_infected := 0; n_dead := 8 |} ] Hinit)
    as (Hshort & Hrows & Hlast); [vm_compute; reflexivity|].
  rewrite Hlen in Hshort, Hlast. split; [exact Hshort|].
  split; [exact Hrows|]. apply Hlast. vm_compute. lia.
Defined.

(** X4. Row number [i] of the history is the census taken after step
    [i + 1]: the numbers of Healthy, Infected and Dead trees in the
    scheduler at that moment.  The state the forest is created in has no
    row. *)
Theorem history_is_census_after_step {R} seed (w h : Z) d (max_steps : Z)
    (m0 : Forest R) (rows : list counts) (i : nat) (r : counts) :
  Forest_init R seed w h d = Ok m0 →
  run_model R seed w h d max_steps = Ok rows →
  rows !! i = Some r →
  let trees := agents (steps (S i) m0) in
  n_healthy r = length (filter (λ t, condition t = Healthy) trees) ∧
  n_infected r = length (filter (λ t, condition t = Infected) trees) ∧
  n_dead r = length (filter (λ t, condition t = Dead) trees).
Proof.
  intros Hinit Hrun Hr trees.
  destruct (run_model_rows seed w h d max_steps m0 Hinit)
    as (k & _ & _ & Hrows & _).
  rewrite Hrun in Hrows. injection Hrows as ->.
  apply census_lookup in Hr as [-> _]. unfold row_of, trees.
  by rewrite !count_type_filter.
Qed.

Lemma history_is_census_after_step_witness :
  agents (steps 1 row_of_three)
  = [ {| unique_id := 0; pos := (0, 0); condition := Dead |};
      {| unique_id := 1; pos := (1, 0); condition := Dead |};
      {| unique_id := 2; pos := (2, 0); condition := Dead |} ] ∧
  let trees := agents (steps 1 row_of_three) in
  0%nat = length (filter (λ t, condition t = Healthy) trees) ∧
  0%nat = length (filter (λ t, condition t = Infected) trees) ∧
  3%nat = length (filter (λ t, condition t = Dead) trees).
Proof.
  split; [reflexivity|].
  apply (history_is_census_after_step (R := fixed_order) () 3 1 float_one 5
           row_of_three [ {| n_healthy := 0; n_infected := 0; n_dead := 3 |} ]
           0 {| n_healthy := 0; n_infected := 0; n_dead := 3 |});
    [apply row_of_three_init | vm_compute; reflexivity | reflexivity].
Defined.

(** ** What a run keeps *)

(** X5. Steps change conditions only: after any number of steps the
    scheduler holds the same trees in the same order, with the same
    identifiers on the same cells, and the grid, its dimensions and the
    density are as before. *)
Theorem steps_change_conditions_only {R} (m : Forest R) (k : nat) :
  pos <$> agents (steps k m) = pos <$> agents m ∧
  unique_id <$> agents (steps k m) = unique_id <$> agents m ∧
  grid (steps k m) = grid m ∧
  width (steps k m) = width m ∧ height (steps k m) = height m ∧
  tree_density (steps k m) = tree_density m.
Proof.
  destruct (steps_frame k m) as (Hw & Hh & Hg & Hd).
  split; [apply steps_sites|]. split; [apply steps_ids|]. done.
Qed.

(** X6. In every state a run goes through, also between two visits of a
    step, grid and scheduler agree: a cell holds the identifier [i] exactly
    when tree [i] of the scheduler stands on it, every tree stands inside
    the rectangle given to the constructor, the identifier of a tree is its
    index in the scheduler, and no two trees share a cell. *)
Theorem reachable_states_consistent {R} seed (w h : Z) d
    (m0 : Forest R) (k : nat) (order : list nat) :
  Forest_init R seed w h d = Ok m0 →
  let m := visit order (steps k m0) in
  (∀ p i, grid m !! p = Some i ↔ pos <$> agents m !! i = Some p) ∧
  (∀ i t, agents m !! i = Some t → in_bounds w h (pos t) ∧ unique_id t = i) ∧
  NoDup (pos <$> agents m).
Proof.
  intros Hinit m.
  destruct (wf_forest_reachable seed w h d m0 k order Hinit) as [Hocc Hb].
  destruct (Forest_init_sites seed w h d m0 Hinit) as (Hnd & Hin & _).
  assert (pos <$> agents m = pos <$> agents m0) as Hsites.
  { unfold m. by rewrite visit_sites, steps_sites. }
  split; [done|]. split; [|by rewrite Hsites].
  intros i t Ht. split.
  - apply Hin. rewrite <-Hsites. apply list_elem_of_fmap. exists t.
    split; [done|]. by eapply list_elem_of_lookup_2.
  - assert (is_Some (agents m0 !! i)) as [t0 Ht0].
    { apply lookup_lt_is_Some. rewrite <-(steps_length k), <-(visit_length order).
      by eapply lookup_lt_Some. }
    destruct (steps_later k m0 i t0 Ht0) as (t1 & Ht1 & Hid1 & _).
    destruct (visit_later order _ i t1 Ht1) as (t2 & Ht2 & Hid2 & _).
    assert (t2 = t) as -> by (unfold m in Ht; congruence).
    rewrite Hid2, Hid1. by eapply Forest_init_ids.
Qed.

Lemma reachable_states_consistent_witness :
  let m := visit [1%nat] (steps 1 row_of_three) in
  (∀ p i, grid m !! p = Some i ↔ pos <$> agents m !! i = Some p) ∧
  (∀ i t, agents m !! i = Some t → in_bounds 3 1 (pos t) ∧ unique_id t = i) ∧
  NoDup (pos <$> agents m).
Proof.
  apply (reachable_states_consistent (R := fixed_order) () 3 1 float_one
           row_of_three 1 [1%nat]).
  apply row_of_three_init.
Defined.

(** ** Where the infection gets *)

(** X7. The infection does not cross a gap.  If a set of trees is closed
    under adjacency (no tree of the set stands next to a tree outside it)
    and none of its trees is Infected, then no number of steps changes any
    of its trees. *)
Theorem infection_does_not_cross_gap {R} (m : Forest R) (P : nat → Prop)
    (k i : nat) :
  wf_forest m →
  (∀ i j, P i → adjacent_trees m i j → P j) →
  (∀ i t, P i → agents m !! i = Some t → condition t ≠ Infected) →
  P i → agents (steps k m) !! i = agents m !! i.
Proof. intros Hwf Hclosed Hclean. by apply steps_gap. Qed.

Lemma infection_does_not_cross_gap_witness :
  ∃ m : Forest lcg,
    Forest_init lcg 0 5 1 float_0_8 = Ok m ∧
    pos <$> agents m = [(0, 0); (3, 0); (4, 0); (1, 0)] ∧
    ∀ k, agents (steps k m) !! 1%nat
         = Some {| unique_id := 1; pos := (3, 0); condition := Healthy |}.
Proof.
  destruct Forest_init_gap as (m & Hinit & Hwf & Hag).
  exists m. split; [exact Hinit|]. split; [by rewrite Hag|]. intros k.
  assert (agents m !! 1%nat
          = Some {| unique_id := 1; pos := (3, 0); condition := Healthy |}) as <-.
  { by rewrite Hag. }
  apply (infection_does_not_cross_gap m (λ i, i = 1 ∨ i = 2)%nat k 1 Hwf).
  - intros i j Hi (p & q & Hp & Hq & Hne & Hx & _).
    rewrite Hag in Hp, Hq.
    destruct j as [|[|[|[|j]]]]; [| by left | by right | |done];
      simpl in Hq; injection Hq as <-;
      destruct Hi as [-> | ->]; simpl in Hp; injection Hp as <-;
      simpl in Hx; lia.
  - intros i t Hi Ht. rewrite Hag in Ht.
    destruct Hi as [-> | ->]; simpl in Ht; by injection Ht as <-.
  - by left.
Defined.

(** X8. In every state a run goes through, also between two visits of a
    step, no Dead tree has a Healthy tree on an adjacent cell: a tree dies
    only in the visit in which it infects its Healthy neighbours. *)
Theorem dead_tree_has_no_healthy_neighbor {R} seed (w h : Z) d
    (m0 : Forest R) (k : nat) (order : list nat) (i j : nat) (t u : Ash_Tree) :
  Forest_init R seed w h d = Ok m0 →
  agents (visit order (steps k m0)) !! i = Some t →
  agents (visit order (steps k m0)) !! j = Some u →
  moore_adjacent (pos t) (pos u) →
  condition t = Dead → condition u ≠ Healthy.
Proof.
  intros Hinit.
  destruct (Forest_init_inv seed w h d m0 Hinit) as (_ & _ & _ & _ & _ & Hwf & _).
  apply (visit_fenced order (steps k m0)); [by apply wf_forest_steps|].
  apply steps_fenced; [done|]. by eapply Forest_init_fenced.
Qed.

Lemma dead_tree_has_no_healthy_neighbor_witness :
  agents (visit [0%nat] row_of_three) !! 0%nat
    = Some {| unique_id := 0; pos := (0, 0); condition := Dead |} ∧
  agents (visit [0%nat] row_of_three) !! 1%nat
    = Some {| unique_id := 1; pos := (1, 0); condition := Infected |} ∧
  Infected ≠ Healthy.
Proof.
  split; [reflexivity|]. split; [reflexivity|].
  apply (dead_tree_has_no_healthy_neighbor (R := fixed_order) () 3 1 float_one
           row_of_three 0 [0%nat] 0 1
           {| unique_id := 0; pos := (0, 0); condition := Dead |}
           {| unique_id := 1; pos := (1, 0); condition := Infected |});
    [apply row_of_three_init | reflexivity | reflexivity | | reflexivity].
  split; [done | simpl; lia].
Defined.

(** X9. What is left when the infection has died out.  In a state of a run
    without an Infected tree, every tree that a chain of adjacent trees
    links to a tree created Infected is Dead, and every tree no such chain
    reaches is Healthy as it was created. *)
Theorem burnt_out_forest {R} seed (w h : Z) d
    (m0 : Forest R) (k j : nat) (t : Ash_Tree) :
  Forest_init R seed w h d = Ok m0 →
  count_type (steps k m0) Infected = 0%nat →
  agents m0 !! j = Some t →
  ((∃ i ti, agents m0 !! i = Some ti ∧ condition ti = Infected ∧
            rtc (adjacent_trees m0) i j) →
   agents (steps k m0) !! j = Some (set_condition Dead t)) ∧
  (out_of_reach m0 j →
   agents (steps k m0) !! j = Some t ∧ condition t = Healthy).
Proof.
  intros Hinit H0 Ht.
  destruct (Forest_init_inv seed w h d m0 Hinit) as (_ & _ & _ & _ & _ & Hwf & _).
  split.
  - intros (i & ti & Hti & Hc & Hpath).
    destruct (finished_connected_dead m0 (steps k m0) i j ti)
      as (u & Hu & Hdead); [|by apply steps_fenced, (Forest_init_fenced seed w h d)
                            |done|done|by rewrite Hc|done|].
    { intros i' t'. apply steps_later. }
    destruct (steps_later k m0 j t Ht) as (u' & Hu' & Hid & Hpos & _).
    assert (u' = u) as -> by congruence.
    rewrite Hu. f_equal. destruct u. simpl in *. unfold set_condition.
    by subst.
  - intros Hout.
    rewrite (steps_gap (out_of_reach m0) k m0 Hwf); [| | |done].
    + split; [done|].
      pose proof (out_of_reach_clean m0 j t Hout Ht).
      pose proof (Forest_init_alive seed w h d m0 t Hinit) as Halive.
      destruct (condition t); [done|done|].
      destruct Halive; [|done]. by eapply list_elem_of_lookup_2.
    + apply out_of_reach_closed.
    + apply out_of_reach_clean.
Qed.

Lemma burnt_out_forest_witness :
  agents (steps 1 row_of_three) !! 2%nat
  = Some {| unique_id := 2; pos := (2, 0); condition := Dead |}.
Proof.
  destruct (burnt_out_forest (R := fixed_order) () 3 1 float_one
              row_of_three 1 2
              {| unique_id := 2; pos := (2, 0); condition := Healthy |})
    as [Hdead _];
    [apply row_of_three_init | reflexivity | reflexivity |].
  apply Hdead.
  exists 0%nat, {| unique_id := 0; pos := (0, 0); condition := Infected |}.
  split; [reflexivity|]. split; [reflexivity|].
  apply (rtc_l _ _ 1%nat).
  { exists (0, 0), (1, 0). split; [reflexivity|]. split; [reflexivity|].
    split; [done | simpl; lia]. }
  apply rtc_once.
  exists (1, 0), (2, 0). split; [reflexivity|]. split; [reflexivity|].
  split; [done | simpl; lia].
Defined.

(** X10. Without a tree in the first column nothing ever happens: a run of
    at least one step returns a single row, which counts every tree
    Healthy. *)
Theorem no_source_single_row {R} seed (w h : Z) d (max_steps : Z)
    (m0 : Forest R) :
  Forest_init R seed w h d = Ok m0 →
  (∀ p, p ∈ pos <$> agents m0 → p.1 ≠ 0) →
  0 < max_steps →
  run_model R seed w h d max_steps
  = Ok [ {| n_healthy := length (agents m0); n_infected := 0; n_dead := 0 |} ].
Proof.
  intros Hinit Hcol Hmax.
  destruct (Forest_init_inv seed w h d m0 Hinit)
    as (n & _ & _ & _ & _ & _ & Hrun & Hrows).
  destruct (Forest_init_sites seed w h d m0 Hinit) as (_ & _ & Hnew).
  assert (∀ j t, agents m0 !! j = Some t → condition t = Healthy) as Hall.
  { intros j t Ht. rewrite (Hnew j t Ht). unfold new_tree. simpl.
    rewrite decide_False; [done|]. apply Hcol, list_elem_of_fmap.
    exists t. split; [done|]. by eapply list_elem_of_lookup_2. }
  assert (count_type m0 Infected = 0%nat) as H0.
  { apply count_type_0. intros j t Ht. by rewrite (Hall j t Ht). }
  assert (count_type m0 Dead = 0%nat) as HD.
  { apply count_type_0. intros j t Ht. by rewrite (Hall j t Ht). }
  assert (agents (Forest_step m0) = agents m0) as Hag.
  { by rewrite Forest_step_agents, visit_idle. }
  unfold run_model. rewrite Hinit. simpl.
  destruct (Z.to_nat max_steps) as [|n'] eqn:En; [lia|].
  simpl. rewrite Hrun, run_loop_finished by by apply Forest_step_idle_finished.
  rewrite Forest_step_rows, Hrows. simpl. unfold row_of.
  rewrite !(count_type_agents m0 (Forest_step m0)) by done.
  pose proof (count_type_sum m0) as Hsum. rewrite H0, HD in *.
  do 3 f_equal. lia.
Qed.

Lemma no_source_single_row_witness :
  run_model lcg 3 5 1 float_0_8 10
  = Ok [ {| n_healthy := 4; n_infected := 0; n_dead := 0 |} ].
Proof.
  destruct Forest_init_no_source as (m & Hinit & Hpos).
  assert (length (agents m) = 4%nat) as Hlen.
  { by rewrite <-(length_fmap pos), Hpos. }
  assert (∀ p, p ∈ pos <$> agents m → p.1 ≠ 0) as Hcol.
  { rewrite Hpos. clear. intros p Hp.
    repeat (apply elem_of_cons in Hp as [-> | Hp]; [done|]).
    apply elem_of_nil in Hp. destruct Hp. }
  pose proof (no_source_single_row (R := lcg) 3 5 1 float_0_8 10 m Hinit Hcol
                eq_refl) as Hrun.
  rewrite Hlen in Hrun. exact Hrun.
Defined.

(** ** More about initialisation *)

(** X11. A new forest has no Dead tree, and at most [height] Infected
    ones, one per cell of the first column. *)
Theorem initial_census {R} seed (w h : Z) d (m0 : Forest R) :
  Forest_init R seed w h d = Ok m0 →
  count_type m0 Dead = 0%nat ∧
  (count_type m0 Infected ≤ Z.to_nat h)%nat ∧
  (count_type m0 Healthy + count_type m0 Infected)%nat = length (agents m0).
Proof.
  intros Hinit.
  pose proof (Forest_init_no_dead seed w h d m0 Hinit) as HD.
  split; [done|]. split; [by eapply Forest_init_infected_bound|].
  pose proof (count_type_sum m0). lia.
Qed.

Lemma initial_census_witness :
  count_type row_of_three Dead = 0%nat ∧
  (count_type row_of_three Infected ≤ Z.to_nat 1)%nat ∧
  (count_type row_of_three Healthy + count_type row_of_three Infected)%nat
  = length (agents row_of_three).
Proof.
  apply (initial_census (R := fixed_order) () 3 1 float_one row_of_three).
  apply row_of_three_init.
Defined.

(** X12. With density [1.0] on a grid of fewer than 2^53 cells every cell
    gets a tree: the positions of the trees are a permutation of all cells,
    and exactly the [height] trees of the first column start Infected. *)
Theorem full_density_plants_every_cell {R} seed (w h : Z) :
  0 < w → 0 < h → w * h < 2 ^ 53 →
  ∃ m : Forest R,
    Forest_init R seed w h float_one = Ok m ∧
    pos <$> agents m ≡ₚ all_cells w h ∧
    length (agents m) = Z.to_nat (w * h) ∧
    count_type m Infected = Z.to_nat h.
Proof.
  intros Hw Hh Hcells.
  destruct (Forest_init_full seed w h Hw Hh Hcells) as (m & Hinit & Hperm).
  exists m. split; [done|]. split; [done|]. split.
  - rewrite <-(length_fmap pos), Hperm, length_all_cells. lia.
  - apply (Forest_init_first_column seed w h float_one m Hinit Hw).
    intros p Hp. rewrite Hperm. by apply elem_of_all_cells.
Qed.

Lemma full_density_plants_every_cell_witness :
  ∃ m : Forest lcg,
    Forest_init lcg 42 50 50 float_one = Ok m ∧
    pos <$> agents m ≡ₚ all_cells 50 50 ∧
    length (agents m) = Z.to_nat (50 * 50) ∧
    count_type m Infected = Z.to_nat 50.
Proof.
  apply (full_density_plants_every_cell (R := lcg) 42 50 50); [lia | lia |].
  apply Z.ltb_lt. reflexivity.
Defined.

(** X13. A fully planted forest burns down completely: with density [1.0]
    and [max_steps] at least the number of cells, the last row of the
    history counts every tree Dead. *)
Theorem full_forest_burns_down {R} seed (w h : Z) (max_steps : Z) :
  0 < w → 0 < h → w * h < 2 ^ 53 → w * h ≤ max_steps →
  ∃ rows, run_model R seed w h float_one max_steps = Ok rows ∧
          last rows = Some {| n_healthy := 0; n_infected := 0;
                              n_dead := Z.to_nat (w * h) |}.
Proof.
  intros Hw Hh Hcells Hmax.
  destruct (Forest_init_full (R := R) seed w h Hw Hh Hcells)
    as (m & Hinit & Hperm).
  assert (length (agents m) = Z.to_nat (w * h)) as Hlen.
  { rewrite <-(length_fmap pos), Hperm, length_all_cells. lia. }
  destruct (Forest_init_inv seed w h float_one m Hinit)
    as (_ & _ & _ & _ & _ & Hwf & _).
  destruct (Forest_init_sites seed w h float_one m Hinit) as (_ & Hin & Hnew).
  destruct (run_model_rows seed w h float_one max_steps m Hinit)
    as (k & _ & _ & Hrows & _ & Hend).
  destruct Hend as [Hk H0]; [rewrite Hlen; nia|].
  eexists. split; [exact Hrows|].
  destruct k as [|k]; [lia|].
  rewrite seq_S, fmap_app, fmap_cons, fmap_nil, last_snoc. f_equal.
  change (0 + k)%nat with k.
  rewrite <-Hlen, <-(steps_length (S k)).
  apply count_type_all_dead. intros j u Hu.
  assert (is_Some (agents m !! j)) as [t Ht].
  { apply lookup_lt_is_Some. rewrite <-(steps_length (S k)).
    by eapply lookup_lt_Some. }
  assert ((pos <$> agents m) !! j = Some (pos t)) as Hj.
  { by rewrite list_lookup_fmap, Ht. }
  assert (in_bounds w h (pos t)) as Hb.
  { apply Hin. by eapply list_elem_of_lookup_2. }
  destruct (full_grid_connected m w h) with (n := Z.to_nat (pos t).1)
    (j := j) (q := pos t) as (i & Hi & Hpath); [|done|done| |].
  { intros p Hp. rewrite Hperm. by apply elem_of_all_cells. }
  { destruct Hb as [? _]. lia. }
  rewrite list_lookup_fmap in Hi.
  destruct (agents m !! i) as [ti|] eqn:Hti; [|done].
  simpl in Hi. injection Hi as Hi.
  destruct (finished_connected_dead m (steps (S k) m) i j ti)
    as (u' & Hu' & Hdead);
    [|by apply steps_fenced, (Forest_init_fenced seed w h float_one)
     |done|done| |done|].
  - intros i' t'. apply steps_later.
  - rewrite (Hnew i ti Hti). unfold new_tree. rewrite Hi.
    unfold condition. by rewrite decide_True.
  - congruence.
Qed.

Lemma full_forest_burns_down_witness :
  ∃ rows, run_model lcg 42 50 50 float_one 2500 = Ok rows ∧
          last rows = Some {| n_healthy := 0; n_infected := 0;
                              n_dead := Z.to_nat (50 * 50) |}.
Proof.
  apply (full_forest_burns_down (R := lcg) 42 50 50 2500); [lia | lia | | lia].
  apply Z.ltb_lt. reflexivity.
Defined.
